(** * be-ota-backend: persistence layer, message dispatcher, liveness
      evaluator and firmware workflow, embedded from the JavaScript sources.

    Conventions of the embedding.
    - A JavaScript string is a sequence of UTF-16 code units.  The model
      covers the strings whose code units are below 256 and writes them as
      [string], one [ascii] per code unit.
    - SQLite's [CURRENT_TIMESTAMP] and [strftime('%s', ...)] have a
      resolution of one second: a timestamp is the number of seconds since
      the epoch, a [Z], and every operation that reads the clock takes the
      current second [now] as an argument.
    - A table is the list of its rows in insertion (rowid) order, each
      column as a query hands it back.
    - A callback-taking function returns the arguments it hands to its
      callback, next to the new database state where it writes.
    - Driver-level I/O failures are not modelled: the [err] branches that
      only such failures reach are kept in the handlers, and the modelled
      store never takes them. *)

From Stdlib Require Import ZArith QArith Qround Qabs Ascii String List Lia Bool.
From stdpp Require Import gmap strings list sorting.

Set Warnings "-register-all".
Open Scope Z_scope.

(** ** Regular expressions

    The sources validate with anchored patterns ([^...$], no flags).  A
    pattern is written as a [regex] over code units and matched against the
    whole subject string by Brzozowski derivatives. *)

Module Regex.

Inductive regex : Type :=
| Void : regex
| Eps : regex
| Class (p : ascii → bool) : regex
| Cat (r1 r2 : regex) : regex
| Alt (r1 r2 : regex) : regex
| Star (r : regex) : regex.

(** [x+] *)
Definition Plus (r : regex) : regex := Cat r (Star r).

(** A literal code unit, e.g. [\.] or [\/]. *)
Definition Chr (c : ascii) : regex := Class (Ascii.eqb c).

(** A literal word such as [firmware\/]. *)
Fixpoint Lit (w : list ascii) : regex :=
  match w with
  | [] => Eps
  | c :: w' => Cat (Chr c) (Lit w')
  end.

(** [r{n,}] *)
Fixpoint AtLeast (n : nat) (r : regex) : regex :=
  match n with
  | O => Star r
  | S n' => Cat r (AtLeast n' r)
  end.

Fixpoint nullable (r : regex) : bool :=
  match r with
  | Void => false
  | Eps => true
  | Class _ => false
  | Cat r1 r2 => nullable r1 && nullable r2
  | Alt r1 r2 => nullable r1 || nullable r2
  | Star _ => true
  end.

Fixpoint deriv (c : ascii) (r : regex) : regex :=
  match r with
  | Void => Void
  | Eps => Void
  | Class p => if p c then Eps else Void
  | Cat r1 r2 =>
      if nullable r1
      then Alt (Cat (deriv c r1) r2) (deriv c r2)
      else Cat (deriv c r1) r2
  | Alt r1 r2 => Alt (deriv c r1) (deriv c r2)
  | Star r1 => Cat (deriv c r1) (Star r1)
  end.

(** Whole-string match: the pattern between [^] and [$]. *)
Fixpoint re_match (r : regex) (s : list ascii) : bool :=
  match s with
  | [] => nullable r
  | c :: s' => re_match (deriv c r) s'
  end.

(** [RegExp.prototype.test] for an anchored pattern. *)
Definition test (r : regex) (s : string) : bool :=
  re_match r (list_ascii_of_string s).

(** A lookahead [(?=r)] at position 0: some prefix of the subject matches. *)
Fixpoint lookahead (r : regex) (s : list ascii) : bool :=
  nullable r ||
  match s with
  | [] => false
  | c :: s' => lookahead (deriv c r) s'
  end.

(** The ways to cut a word in two, longest first part first: the order in
    which a greedy quantifier gives characters back. *)
Fixpoint splits (s : list ascii) : list (list ascii * list ascii) :=
  match s with
  | [] => [([], [])]
  | c :: s' => map (λ ab, (c :: ab.1, ab.2)) (splits s') ++ [([], s)]
  end.

(** The first alternative that succeeds. *)
Fixpoint first_some {A B : Type} (f : A → option B) (l : list A) : option B :=
  match l with
  | [] => None
  | x :: l' => match f x with
               | Some y => Some y
               | None => first_some f l'
               end
  end.

(** [String.prototype.match] with the anchored pattern [^pre(grp)post$]:
    capture 1 of the first successful way to cut the subject, or nothing. *)
Definition match_group (pre grp post : regex) (s : string) : option string :=
  first_some
    (λ ar, if re_match pre ar.1
           then first_some
                  (λ gb, if re_match grp gb.1 && re_match post gb.2
                         then Some (string_of_list_ascii gb.1)
                         else None)
                  (splits ar.2)
           else None)
    (splits (list_ascii_of_string s)).

(** Declarative meaning of a pattern. *)
Inductive Matches : regex → list ascii → Prop :=
| MEps : Matches Eps []
| MClass p c : p c = true → Matches (Class p) [c]
| MCat r1 r2 s1 s2 :
    Matches r1 s1 → Matches r2 s2 → Matches (Cat r1 r2) (s1 ++ s2)
| MAltL r1 r2 s : Matches r1 s → Matches (Alt r1 r2) s
| MAltR r1 r2 s : Matches r2 s → Matches (Alt r1 r2) s
| MStarNil r : Matches (Star r) []
| MStarCons r s1 s2 :
    Matches r s1 → Matches (Star r) s2 → Matches (Star r) (s1 ++ s2).

(** Character classes of the sources. *)
Definition in_range (lo hi c : ascii) : bool :=
  (nat_of_ascii lo <=? nat_of_ascii c)%nat && (nat_of_ascii c <=? nat_of_ascii hi)%nat.

(** [\d] *)
Definition is_digit (c : ascii) : bool := in_range "0" "9" c.

(** [[\d\.]] *)
Definition is_digit_or_dot (c : ascii) : bool := is_digit c || Ascii.eqb c ".".

(** [[a-zA-Z0-9_]] *)
Definition is_word (c : ascii) : bool :=
  in_range "a" "z" c || in_range "A" "Z" c || in_range "0" "9" c || Ascii.eqb c "_".

(** [[!@#$%^&*]] *)
Definition is_special (c : ascii) : bool :=
  existsb (Ascii.eqb c) (list_ascii_of_string "!@#$%^&*").

(** [.] without the [s] flag: anything but a line terminator (of the line
    terminators only LF and CR are below 256). *)
Definition is_dot (c : ascii) : bool :=
  negb (Ascii.eqb c "010" || Ascii.eqb c "013").

End Regex.

(** ** JavaScript values *)

Module Js.

(** The values [JSON.parse] produces, and [undefined] for a property that
    is not there. *)
Inductive jsval : Type :=
| JUndefined : jsval
| JNull : jsval
| JBool (b : bool) : jsval
| JNumber (q : Q) : jsval
| JString (s : string) : jsval
| JArray (items : list jsval) : jsval
| JObject (fields : list (string * jsval)) : jsval.

(** Own property of a parsed object, by name. *)
Fixpoint lookup_field (k : string) (fields : list (string * jsval)) : jsval :=
  match fields with
  | [] => JUndefined
  | (k', v) :: rest => if String.eqb k k' then v else lookup_field k rest
  end.

(** Outcome of evaluating an expression: a value, or a thrown exception. *)
Inductive completion (A : Type) : Type :=
| Normal (a : A) : completion A
| Throw (name : string) : completion A.
Arguments Normal {A} a.
Arguments Throw {A} name.

(** [o.k] for the data properties the sources read: reading a property of
    [null] or [undefined] throws a TypeError, primitives and arrays have no
    such property. *)
Definition get (o : jsval) (k : string) : completion jsval :=
  match o with
  | JUndefined | JNull => Throw "TypeError"
  | JObject fields => Normal (lookup_field k fields)
  | _ => Normal JUndefined
  end.

(** [v === 'lit'] *)
Definition strict_eq_string (v : jsval) (lit : string) : bool :=
  match v with
  | JString s => String.eqb s lit
  | _ => false
  end.

(** An HTTP response: [res.status(n).json(body)]; [res.json] alone is 200. *)
Record response : Type := { status : Z; body : jsval }.

Definition json_error (n : Z) (msg : string) : response :=
  {| status := n; body := JObject [("error"%string, JString msg)] |}.

End Js.

(** ** The SQLite driver (node-sqlite3) and what SQLite stores

    [stmt.run(a1, ..., an, callback)] and [db.run(sql, [a1, ..., an],
    callback)] hand their arguments to [Statement::Bind]. *)

Module Sqlite3.
Import Js.

(** A value as the driver hands it to SQLite. *)
Inductive field : Type :=
| FNull : field
| FInteger (z : Z) : field
| FFloat (q : Q) : field
| FText (s : string) : field.

(** [OtherIsInt]: the number is equal to its 32-bit integer. *)
Definition int32_of (q : Q) : option Z :=
  let n := Qnum q / Zpos (Qden q) in
  if (Qnum q mod Zpos (Qden q) =? 0) && (- 2 ^ 31 <=? n) && (n <? 2 ^ 31)
  then Some n
  else None.

(** [Statement::BindParameter]: [undefined] yields no field at all, an
    object or an array the text "[object Object]". *)
Definition bindParameter (v : jsval) : option field :=
  match v with
  | JUndefined => None
  | JNull => Some FNull
  | JBool b => Some (FInteger (if b then 1 else 0))
  | JNumber q => Some match int32_of q with
                      | Some n => FInteger n
                      | None => FFloat q
                      end
  | JString s => Some (FText s)
  | JArray _ | JObject _ => Some (FText "[object Object]")
  end.

(** The field of a value in a positional call; [undefined] leaves the
    parameter unbound, which SQLite reads as NULL. *)
Definition field_of (v : jsval) : field :=
  match bindParameter v with
  | Some f => f
  | None => FNull
  end.

(** *** [ToNumber] of a property name

    An object as first argument is read as a list of parameters, one per
    property; a property whose name converts to a 32-bit integer is bound
    by position, any other by name. *)

Fixpoint take_while (p : ascii → bool) (l : list ascii) : list ascii :=
  match l with
  | c :: l' => if p c then c :: take_while p l' else []
  | [] => []
  end.

Fixpoint drop_while (p : ascii → bool) (l : list ascii) : list ascii :=
  match l with
  | c :: l' => if p c then drop_while p l' else l
  | [] => []
  end.

(** White space and line terminators (those below 256). *)
Definition is_js_space (c : ascii) : bool :=
  existsb (Ascii.eqb c) ["009"; "010"; "011"; "012"; "013"; "032"; "160"]%char.

Definition trim (l : list ascii) : list ascii :=
  rev (drop_while is_js_space (rev (drop_while is_js_space l))).

Definition digit_value (c : ascii) : Z := Z.of_nat (nat_of_ascii c) - 48.

Definition is_hex_digit (c : ascii) : bool :=
  Regex.is_digit c || Regex.in_range "a" "f" c || Regex.in_range "A" "F" c.

Definition hex_value (c : ascii) : Z :=
  if Regex.is_digit c then digit_value c
  else if Regex.in_range "a" "f" c then Z.of_nat (nat_of_ascii c) - 87
  else Z.of_nat (nat_of_ascii c) - 55.

Definition number_in (base : Z) (value : ascii → Z) (digits : list ascii) : Z :=
  foldl (λ acc c, acc * base + value c) 0 digits.

Definition digits_in (allowed : ascii → bool) (base : Z) (value : ascii → Z)
    (digits : list ascii) : option Z :=
  match digits with
  | [] => None
  | _ => if forallb allowed digits then Some (number_in base value digits) else None
  end.

(** [0x...], [0o...], [0b...] *)
Definition radix_literal (l : list ascii) : option Z :=
  match l with
  | "0"%char :: x :: digits =>
      if Ascii.eqb x "x" || Ascii.eqb x "X"
      then digits_in is_hex_digit 16 hex_value digits
      else if Ascii.eqb x "o" || Ascii.eqb x "O"
      then digits_in (Regex.in_range "0" "7") 8 digit_value digits
      else if Ascii.eqb x "b" || Ascii.eqb x "B"
      then digits_in (Regex.in_range "0" "1") 2 digit_value digits
      else None
  | _ => None
  end.

Definition signed_digits (l : list ascii) : option Z :=
  match l with
  | "+"%char :: digits => digits_in Regex.is_digit 10 digit_value digits
  | "-"%char :: digits => Z.opp <$> digits_in Regex.is_digit 10 digit_value digits
  | _ => digits_in Regex.is_digit 10 digit_value l
  end.

Definition pow10 (k : Z) : Q :=
  if 0 <=? k then inject_Z (10 ^ k) else (1 # Z.to_pos (10 ^ (- k)))%Q.

Definition pow2 (k : Z) : Q :=
  if 0 <=? k then inject_Z (2 ^ k) else (1 # Z.to_pos (2 ^ (- k)))%Q.

(** [digits . digits? exponent?], [. digits exponent?], [digits exponent?] *)
Definition unsigned_decimal (l : list ascii) : option Q :=
  let int_part := take_while Regex.is_digit l in
  let rest := drop_while Regex.is_digit l in
  let frac_part := match rest with
                   | "."%char :: r => take_while Regex.is_digit r
                   | _ => []
                   end in
  let rest' := match rest with
               | "."%char :: r => drop_while Regex.is_digit r
               | _ => rest
               end in
  let exponent := match rest' with
                  | [] => Some 0
                  | e :: r => if Ascii.eqb e "e" || Ascii.eqb e "E"
                              then signed_digits r
                              else None
                  end in
  match int_part, frac_part with
  | [], [] => None
  | _, _ =>
      match exponent with
      | None => None
      | Some k =>
          let shift := Z.of_nat (length frac_part) in
          Some (inject_Z (number_in 10 digit_value int_part * 10 ^ shift
                          + number_in 10 digit_value frac_part)
                * pow10 (k - shift))%Q
      end
  end.

(** The mathematical value of the name read as a numeric literal; [None]
    when [ToNumber] gives NaN or an infinity. *)
Definition numeric_value (name : string) : option Q :=
  match trim (list_ascii_of_string name) with
  | [] => Some 0%Q
  | t =>
      match radix_literal t with
      | Some n => Some (inject_Z n)
      | None =>
          match t with
          | "+"%char :: r => unsigned_decimal r
          | "-"%char :: r => Qopp <$> unsigned_decimal r
          | _ => unsigned_decimal t
          end
      end
  end.

(** The 32-bit integer that the value rounds to as a double, if it
    rounds to one: within half a unit in the last place of it (the ties go
    to the integer, whose last bit is 0). *)
Definition rounds_to_int32 (v : Q) : option Z :=
  let n := Qfloor (v + (1 # 2))%Q in
  let m := Z.abs n in
  let a := Qabs v in
  if n =? 0
  then if Qle_bool a (pow2 (- 1075)) then Some 0 else None
  else if (- 2 ^ 31 <=? n) && (n <? 2 ^ 31)
  then
    let e := Z.log2 m in
    let above := pow2 (e - 53) in
    let below := if m =? 2 ^ e then pow2 (e - 54) else pow2 (e - 53) in
    if Qle_bool (inject_Z m - below)%Q a && Qle_bool a (inject_Z m + above)%Q
    then Some n
    else None
  else None.

(** Where a field goes. *)
Inductive place : Type :=
| Position (i : Z) : place
| Named (name : string) : place.

Definition property_place (name : string) : place :=
  match numeric_value name ≫= rounds_to_int32 with
  | Some n => Position n
  | None => Named name
  end.

(** An array index as a property name: the engine lists such properties
    first. *)
Definition is_array_index (name : string) : bool :=
  match list_ascii_of_string name with
  | [] => false
  | ["0"%char] => true
  | c :: digits =>
      Regex.in_range "1" "9" c && forallb Regex.is_digit digits
      && (number_in 10 digit_value (c :: digits) <? 2 ^ 32 - 1)
  end.

Fixpoint positional (i : Z) (values : list jsval) : list (place * field) :=
  match values with
  | [] => []
  | v :: rest =>
      match bindParameter v with
      | Some f => (Position i, f) :: positional (i + 1) rest
      | None => positional (i + 1) rest
      end
  end.

(** The properties of a parsed object have pairwise distinct names. *)
Definition named (props : list (string * jsval)) : list (place * field) :=
  omap (λ p, (λ f, (property_place p.1, f)) <$> bindParameter p.2)
       (List.filter (λ p, is_array_index p.1) props
        ++ List.filter (λ p, negb (is_array_index p.1)) props).

(** [Statement::Bind] on the arguments before the callback: an array as
    first argument is the list of values, an object as first argument the
    list of named values, and anything else starts a positional list. *)
Definition Bind (args : list jsval) : list (place * field) :=
  match args with
  | JArray items :: _ => positional 1 items
  | JObject props :: _ => named props
  | _ => positional 1 args
  end.

(** Binding one field to a statement of [count] anonymous parameters:
    a position out of range and every name fail the statement. *)
Definition bind_field (count : nat) (columns : option (list field))
    (p : place * field) : option (list field) :=
  match columns with
  | None => None
  | Some cs =>
      match p.1 with
      | Position i =>
          if (0 <? i) && (i <=? Z.of_nat count)
          then Some (<[Z.to_nat (i - 1) := p.2]> cs)
          else None
      | Named _ => None
      end
  end.

(** The values of the statement's parameters, or [None] when binding
    fails (the statement is not run and the callback gets the error). *)
Definition bound_values (count : nat) (args : list jsval) : option (list field) :=
  foldl (bind_field count) (Some (replicate count FNull)) (Bind args).

(** An argument that the driver reads as the whole parameter list. *)
Definition is_parameter_list (v : jsval) : bool :=
  match v with
  | JArray _ | JObject _ => true
  | _ => false
  end.

(** *** Column affinity

    What a query reads back from a column.  SQLite converts on storing
    according to the column's declared type; where the conversion is
    between text and number its result is left as written
    ([SqlConverted]). *)
Inductive affinity : Type := INTEGER | REAL | TEXT.

Inductive sqlval : Type :=
| SqlNull : sqlval
| SqlNumber (q : Q) : sqlval
| SqlText (s : string) : sqlval
| SqlConverted (a : affinity) (f : field) : sqlval.

Definition apply_affinity (a : affinity) (f : field) : sqlval :=
  match f, a with
  | FNull, _ => SqlNull
  | FInteger z, TEXT => SqlConverted TEXT f
  | FInteger z, _ => SqlNumber (inject_Z z)
  | FFloat q, TEXT => SqlConverted TEXT f
  | FFloat q, _ => SqlNumber q
  | FText s, TEXT => SqlText s
  | FText s, _ => SqlConverted a f
  end.

(** What a column of affinity [a] holds after a positional bind of [v]. *)
Definition stored (a : affinity) (v : jsval) : sqlval :=
  apply_affinity a (field_of v).

End Sqlite3.

(** ** The relational store (connection.js) and its queries (queries.js) *)

Module Db.
Import Js Sqlite3.

(** SensorData: [temperature REAL, humidity REAL, fanState INTEGER,
    heaterState INTEGER, deviceID TEXT, firmwareVersion TEXT], each column
    as a query reads it back; [timestamp] defaults to
    [CURRENT_TIMESTAMP]. *)
Record SensorRow : Type := {
  sd_id : Z;
  sd_temperature : sqlval;
  sd_humidity : sqlval;
  sd_fanState : sqlval;
  sd_heaterState : sqlval;
  sd_deviceID : sqlval;
  sd_firmwareVersion : sqlval;
  sd_timestamp : Z
}.

(** SerialMessages: [message TEXT NOT NULL]. *)
Record SerialRow : Type := { sm_id : Z; sm_message : sqlval }.

(** LatestStableFirmware: [firmwareVersion TEXT] (nullable), [timestamp]. *)
Record FirmwareRow : Type := {
  lsf_id : Z;
  lsf_firmwareVersion : option string;
  lsf_timestamp : Z
}.

(** users: [username TEXT UNIQUE], [password TEXT]. *)
Record UserRow : Type := { u_id : Z; u_username : string; u_password : string }.

Record Database : Type := {
  SensorData : list SensorRow;
  SerialMessages : list SerialRow;
  LatestStableFirmware : list FirmwareRow;
  users : list UserRow
}.

Definition empty_db : Database :=
  {| SensorData := []; SerialMessages := []; LatestStableFirmware := []; users := [] |}.

(** [INTEGER PRIMARY KEY AUTOINCREMENT]: one more than the largest rowid
    (no row is ever deleted). *)
Definition next_rowid (ids : list Z) : Z := 1 + foldr Z.max 0 ids.

(** *** insertData: [stmt.run] with the six values; when binding fails
    the error is logged and no row is written. *)
Definition insertData (db : Database) (now : Z)
    (temperature humidity fanState heaterState deviceID firmwareVersion : jsval)
    : Database :=
  match bound_values 6 [temperature; humidity; fanState; heaterState; deviceID;
                        firmwareVersion] with
  | Some [c1; c2; c3; c4; c5; c6] =>
      let row := {| sd_id := next_rowid (map sd_id (SensorData db));
                    sd_temperature := apply_affinity REAL c1;
                    sd_humidity := apply_affinity REAL c2;
                    sd_fanState := apply_affinity INTEGER c3;
                    sd_heaterState := apply_affinity INTEGER c4;
                    sd_deviceID := apply_affinity TEXT c5;
                    sd_firmwareVersion := apply_affinity TEXT c6;
                    sd_timestamp := now |} in
      {| SensorData := SensorData db ++ [row];
         SerialMessages := SerialMessages db;
         LatestStableFirmware := LatestStableFirmware db;
         users := users db |}
  | _ => db
  end.

(** [ORDER BY key DESC LIMIT 1]: SQLite scans the table in rowid order and
    keeps the first row among those with the greatest key.  (The text of a
    [CURRENT_TIMESTAMP] has a fixed width, so that comparing two of them
    as text is comparing their seconds.) *)
Definition order_by_desc_limit_1 {A : Type} (key : A → Z) (rows : list A) : option A :=
  foldl (λ best r,
           match best with
           | None => Some r
           | Some b => if key b <? key r then Some r else Some b
           end) None rows.

(** *** fetchLastRecord: the arguments of [callback(row, err)]. *)
Definition fetchLastRecord (db : Database) : option SensorRow * option jsval :=
  (order_by_desc_limit_1 sd_id (SensorData db), None).

(** *** checkDeviceStatus *)

(** A row of the status query:
    [SELECT *, strftime('%s','now') - strftime('%s', timestamp) as time_difference]. *)
Record StatusRow : Type := { st_row : SensorRow; time_difference : Z }.

Definition status_query (db : Database) (now : Z) : option StatusRow :=
  match order_by_desc_limit_1 sd_id (SensorData db) with
  | None => None
  | Some r => Some {| st_row := r; time_difference := now - sd_timestamp r |}
  end.

(** [lastSeen] is the row's timestamp column, or a string. *)
Inductive lastSeen_value : Type :=
| SeenAt (timestamp : Z)
| SeenText (s : string).

Record DeviceStatus : Type := { ds_status : string; ds_lastSeen : lastSeen_value }.

(** The body of the [db.get] callback, on a successful query.  The Online
    branch is only taken with a row, so its [row.timestamp] is the same
    expression as the other branch's [row ? row.timestamp : 'N/A']. *)
Definition device_status_of (row : option StatusRow) : DeviceStatus :=
  let timeDifference := time_difference <$> row in
  let lastSeen := match row with
                  | Some r => SeenAt (sd_timestamp (st_row r))
                  | None => SeenText "N/A"
                  end in
  if match timeDifference with
     | Some d => d <=? 30
     | None => false
     end
  then {| ds_status := "Online"; ds_lastSeen := lastSeen |}
  else {| ds_status := "Offline"; ds_lastSeen := lastSeen |}.

(** The arguments of [callback(result, err)]. *)
Definition checkDeviceStatus (db : Database) (now : Z) : option DeviceStatus * option jsval :=
  (Some (device_status_of (status_query db now)), None).

(** *** insertSerialMessage: [stmt.run] with the one value; the
    statement fails when binding fails and, by the NOT NULL constraint,
    when the parameter is NULL; the error is logged and no row is
    written. *)
Definition insertSerialMessage (db : Database) (serialMessage : jsval) : Database :=
  match bound_values 1 [serialMessage] with
  | Some [FNull] => db
  | Some [c] =>
      let row := {| sm_id := next_rowid (map sm_id (SerialMessages db));
                    sm_message := apply_affinity TEXT c |} in
      {| SensorData := SensorData db;
         SerialMessages := SerialMessages db ++ [row];
         LatestStableFirmware := LatestStableFirmware db;
         users := users db |}
  | _ => db
  end.

(** *** setLatestStableFirmwareVersion *)

(** [/^\d+\.\d+\.\d+$/] *)
Definition versionPattern : Regex.regex :=
  Regex.Cat (Regex.Plus (Regex.Class Regex.is_digit))
    (Regex.Cat (Regex.Chr ".")
       (Regex.Cat (Regex.Plus (Regex.Class Regex.is_digit))
          (Regex.Cat (Regex.Chr ".")
             (Regex.Plus (Regex.Class Regex.is_digit))))).

Definition validateFirmwareVersion (version : string) : bool :=
  Regex.test versionPattern version.

Definition invalid_version_message : string :=
  "Invalid firmware version format. Use major.minor.patch (e.g., 1.0.2)".

Definition set_success_message : string :=
  "Latest stable firmware version set successfully".

(** The new state and the arguments of [callback(err, result)]. *)
Definition setLatestStableFirmwareVersion (db : Database) (now : Z) (firmwareVersion : string)
    : Database * (option jsval * option jsval) :=
  if negb (validateFirmwareVersion firmwareVersion)
  then (db, (Some (JObject [("error"%string, JString invalid_version_message)]), None))
  else
    let row := {| lsf_id := next_rowid (map lsf_id (LatestStableFirmware db));
                  lsf_firmwareVersion := Some firmwareVersion;
                  lsf_timestamp := now |} in
    ({| SensorData := SensorData db;
        SerialMessages := SerialMessages db;
        LatestStableFirmware := LatestStableFirmware db ++ [row];
        users := users db |},
     (None, Some (JObject [("message"%string, JString set_success_message)]))).

(** *** fetchLatestStableFirmwareVersion *)

(** The row of [SELECT firmwareVersion]. *)
Record VersionRow : Type := { firmwareVersion : option string }.

(** The arguments of [callback(err, row)]. *)
Definition fetchLatestStableFirmwareVersion (db : Database)
    : option jsval * option VersionRow :=
  (None,
   (λ r, {| firmwareVersion := lsf_firmwareVersion r |})
     <$> order_by_desc_limit_1 lsf_timestamp (LatestStableFirmware db)).

(** *** findUserByUsername: the arguments of [callback(err, row)]. *)
Definition findUserByUsername (db : Database) (username : string)
    : option jsval * option UserRow :=
  (None, find (λ r, String.eqb (u_username r) username) (users db)).

(** *** createUser: the UNIQUE constraint fails the statement when the
    username is already there; the argument of [callback(err)]. *)
Definition createUser (db : Database) (username password : string)
    : Database * option jsval :=
  if existsb (λ r, String.eqb (u_username r) username) (users db)
  then (db, Some (JString "SQLITE_CONSTRAINT: UNIQUE constraint failed: users.username"))
  else
    let row := {| u_id := next_rowid (map u_id (users db));
                  u_username := username;
                  u_password := password |} in
    ({| SensorData := SensorData db;
        SerialMessages := SerialMessages db;
        LatestStableFirmware := LatestStableFirmware db;
        users := users db ++ [row] |},
     None).

(** *** fetchLatestSerialMessages *)

(** [ORDER BY id DESC]: [id] is the primary key, no two rows tie. *)
Definition id_desc (a b : SerialRow) : Prop := sm_id b ≤ sm_id a.

#[global] Instance id_desc_dec : RelDecision id_desc :=
  λ a b, decide (sm_id b ≤ sm_id a).

Definition order_by_id_desc (rows : list SerialRow) : list SerialRow :=
  merge_sort id_desc rows.

(** The arguments of [callback(rows, err)]: [LIMIT 10]. *)
Definition fetchLatestSerialMessages (db : Database)
    : option (list SerialRow) * option jsval :=
  (Some (take 10 (order_by_id_desc (SerialMessages db))), None).

End Db.

(** ** The message dispatcher (mqttHandler.js) *)

Module Mqtt.
Import Js.

(** What the message listener does to the outside: a call into the
    persistence layer, or a console line. *)
Inductive effect : Type :=
| CallInsertData
    (temperature humidity fanState heaterState deviceID firmwareVersion : jsval)
| CallInsertSerialMessage (serialMessage : jsval)
| ConsoleLog (args : list jsval)
| ConsoleError (args : list jsval).

Definition is_storage_call (e : effect) : bool :=
  match e with
  | CallInsertData _ _ _ _ _ _ | CallInsertSerialMessage _ => true
  | ConsoleLog _ | ConsoleError _ => false
  end.

Definition storage_calls (es : list effect) : list effect :=
  List.filter is_storage_call es.

(** The statements of the [try] block after [JSON.parse]. *)
Definition classify (messageObject : jsval) : completion (list effect) :=
  match get messageObject "messageType" with
  | Throw e => Throw e
  | Normal messageType =>
      if strict_eq_string messageType "data" then
        match get messageObject "temperature",
              get messageObject "humidity",
              get messageObject "heaterState",
              get messageObject "deviceID",
              get messageObject "version" with
        | Normal temperature, Normal humidity, Normal heaterState,
          Normal deviceID, Normal firmwareVersion =>
            Normal
              [ ConsoleLog [JString "Data Message:"];
                ConsoleLog [JString "Temperature:"; temperature];
                ConsoleLog [JString "Humidity:"; humidity];
                ConsoleLog [JString "Heater State:"; heaterState];
                ConsoleLog [JString "Device ID:"; deviceID];
                ConsoleLog [JString "Firmware Version:"; firmwareVersion];
                CallInsertData temperature humidity (JBool false) heaterState
                               deviceID firmwareVersion ]
        | _, _, _, _, _ => Throw "TypeError"
        end
      else if strict_eq_string messageType "serial" then
        match get messageObject "serialMessage" with
        | Normal serialMessage =>
            Normal
              [ ConsoleLog [JString "Serial Message:"; serialMessage];
                CallInsertSerialMessage serialMessage ]
        | Throw e => Throw e
        end
      else
        Normal [ConsoleLog [JString "Unknown message type:"; messageType]]
  end.

Section Listener.

(** [JSON.parse(message.toString())]: the parsed value, or [None] when
    it throws a SyntaxError. *)
Variable JSON_parse : string → option jsval.

(** The ['message'] listener: [try { ... } catch (err) { console.error }].
    The second argument of the error line stands for [err.message]. *)
Definition on_message (message : string) : list effect :=
  match JSON_parse message with
  | None =>
      [ConsoleError [JString "Failed to parse incoming message:"; JString "SyntaxError"]]
  | Some messageObject =>
      match classify messageObject with
      | Normal effects => effects
      | Throw name =>
          [ConsoleError [JString "Failed to parse incoming message:"; JString name]]
      end
  end.

(** The effect of one call on the store. *)
Definition perform (now : Z) (db : Db.Database) (e : effect) : Db.Database :=
  match e with
  | CallInsertData temperature humidity fanState heaterState deviceID firmwareVersion =>
      Db.insertData db now temperature humidity fanState heaterState deviceID
                    firmwareVersion
  | CallInsertSerialMessage serialMessage => Db.insertSerialMessage db serialMessage
  | ConsoleLog _ | ConsoleError _ => db
  end.

(** The store after one inbound message. *)
Definition handle_message (db : Db.Database) (now : Z) (message : string) : Db.Database :=
  foldl (perform now) db (on_message message).

End Listener.

End Mqtt.

(** ** Validators (validator.js) *)

Module Validator.

(** [/^[a-zA-Z0-9_]{3,}$/] *)
Definition validUsername : Regex.regex :=
  Regex.AtLeast 3 (Regex.Class Regex.is_word).

Definition validateUsername (username : string) : bool :=
  Regex.test validUsername username.

(** [/^(?=.*\d)(?=.*[!@#$%^&*])(?=.*[a-z])(?=.*[A-Z]).{6,}$/]: four
    lookaheads at the start of the subject, then the anchored body. *)
Definition any_then (p : ascii → bool) : Regex.regex :=
  Regex.Cat (Regex.Star (Regex.Class Regex.is_dot)) (Regex.Class p).

Definition validatePassword (password : string) : bool :=
  let s := list_ascii_of_string password in
  Regex.lookahead (any_then Regex.is_digit) s
  && Regex.lookahead (any_then Regex.is_special) s
  && Regex.lookahead (any_then (Regex.in_range "a" "z")) s
  && Regex.lookahead (any_then (Regex.in_range "A" "Z")) s
  && Regex.re_match (Regex.AtLeast 6 (Regex.Class Regex.is_dot)) s.

End Validator.

(** ** HTTP handlers (routes/index.js, routes/auth.js) *)

Module Routes.
Import Js Db.

(** [validateFirmwareVersion] of routes/index.js: the same pattern as the
    persistence layer's. *)
Definition validateFirmwareVersion (version : string) : bool :=
  Regex.test Db.versionPattern version.

(** GET /set-stable-latest-version; [firmwareVersion] is the query
    parameter when it is given once, as a string, and [None] when it is
    not given. *)
Definition set_stable_latest_version (db : Database) (now : Z)
    (firmwareVersion : option string) : Database * response :=
  match firmwareVersion with
  | None => (db, json_error 400 invalid_version_message)
  | Some v =>
      if String.eqb v "" || negb (validateFirmwareVersion v)
      then (db, json_error 400 invalid_version_message)
      else
        match setLatestStableFirmwareVersion db now v with
        | (db', (Some err, _)) => (db', {| status := 500; body := err |})
        | (db', (None, Some result)) => (db', {| status := 200; body := result |})
        | (db', (None, None)) => (db', {| status := 200; body := JNull |})
        end
  end.

(** The callback of GET /latest-stable-firmware. *)
Definition latest_stable_firmware_response
    (err : option jsval) (result : option VersionRow) : response :=
  match err with
  | Some _ => json_error 500 "Internal Server Error"
  | None =>
      match result with
      | None => json_error 404 "No stable firmware version found"
      | Some row =>
          match firmwareVersion row with
          | None => json_error 404 "No stable firmware version found"
          | Some v =>
              if String.eqb v ""
              then json_error 404 "No stable firmware version found"
              else {| status := 200;
                      body := JObject [("firmwareVersion"%string, JString v)] |}
          end
      end
  end.

(** GET /latest-stable-firmware *)
Definition latest_stable_firmware (db : Database) : response :=
  let '(err, result) := fetchLatestStableFirmwareVersion db in
  latest_stable_firmware_response err result.

Definition username_rule_message : string :=
  "Username must be at least 3 characters long and contain only alphanumeric characters and underscores".

Definition password_rule_message : string :=
  "Password must be at least 6 characters long and contain at least one uppercase letter, one lowercase letter, one number, and one special character".

(** POST /register *)
Definition register (db : Database) (username password : string) : Database * response :=
  if negb (Validator.validateUsername username)
  then (db, json_error 400 username_rule_message)
  else if negb (Validator.validatePassword password)
  then (db, json_error 400 password_rule_message)
  else
    match findUserByUsername db username with
    | (Some _, _) => (db, json_error 500 "Internal Server Error")
    | (None, Some _) => (db, json_error 400 "Username already exists")
    | (None, None) =>
        match createUser db username password with
        | (db', Some _) => (db', json_error 500 "Internal Server Error")
        | (db', None) =>
            (db', {| status := 201;
                     body := JObject [("message"%string,
                                       JString "User registered successfully")] |})
        end
    end.

(** A response whose body is the value handed to [res.json], or an error
    object [{ error }]. *)
Inductive reply (A : Type) : Type :=
| Sent (code : Z) (payload : A) : reply A
| Refused (code : Z) (error : string) : reply A.
Arguments Sent {A} code payload.
Arguments Refused {A} code error.

(** GET /get-sensor-data *)
Definition get_sensor_data (db : Database) : reply SensorRow :=
  match fetchLastRecord db with
  | (_, Some _) => Refused 500 "Internal Server Error"
  | (Some row, None) => Sent 200 row
  | (None, None) => Refused 404 "No records found"
  end.

(** GET /check-device-status *)
Definition check_device_status (db : Database) (now : Z) : reply (option DeviceStatus) :=
  match checkDeviceStatus db now with
  | (_, Some _) => Refused 500 "Internal Server Error"
  | (result, None) => Sent 200 result
  end.

(** GET /latest-serial-messages *)
Definition latest_serial_messages (db : Database) : reply (option (list SerialRow)) :=
  match fetchLatestSerialMessages db with
  | (_, Some _) => Refused 500 "Failed to fetch latest serial messages"
  | (messages, None) => Sent 200 messages
  end.

End Routes.

(** ** Object storage (firebaseStorage.js) *)

Module Storage.

(** The file multer hands over, and an object as the bucket keeps it. *)
Record UploadedFile : Type := { originalname : string; buffer : string; mimetype : string }.
Record StoredObject : Type := { contents : string; contentType : string }.

(** A bucket maps object names to objects. *)
Abbreviation Bucket := (gmap string StoredObject).

(** [bucket.getFiles({ prefix })]: the names of the objects under a prefix. *)
Definition getFiles (prefix : string) (bucket : Bucket) : list string :=
  (map_to_list (filter (λ kv, String.prefix prefix kv.1 = true) bucket)).*1.

(** The new bucket and the returned destination path. *)
Definition uploadFileToFirebaseStorage (file : UploadedFile) (firmwareVersion : string)
    (bucket : Bucket) : Bucket * string :=
  let destinationPath := "firmware/" +:+ firmwareVersion +:+ "/firmware.bin" in
  let existingFiles := getFiles ("firmware/" +:+ firmwareVersion +:+ "/") bucket in
  let bucket' := foldl (λ b existingFile, delete existingFile b) bucket existingFiles in
  (<[destinationPath := {| contents := buffer file; contentType := mimetype file |}]> bucket',
   destinationPath).

(** The objects under [firmware/<version>/]. *)
Definition objects_under (firmwareVersion : string) (bucket : Bucket) : Bucket :=
  filter (λ kv, String.prefix ("firmware/" +:+ firmwareVersion +:+ "/") kv.1 = true) bucket.

(** [/^firmware\/([\d\.]+)\/firmware\.bin$/], capture 1. *)
Definition match_firmware_path (filePath : string) : option string :=
  Regex.match_group
    (Regex.Lit (list_ascii_of_string "firmware/"))
    (Regex.Plus (Regex.Class Regex.is_digit_or_dot))
    (Regex.Lit (list_ascii_of_string "/firmware.bin"))
    filePath.

(** A JavaScript [Set] of strings keeps its elements once, in insertion
    order; [Array.from] lists them in that order. *)
Definition Set_add (version : string) (versions : list string) : list string :=
  if decide (version ∈ versions) then versions else versions ++ [version].

(** [files] are the names of the bucket listing. *)
Definition listFirmwareVersions (files : list string) : list string :=
  foldl (λ versions filePath,
           match match_firmware_path filePath with
           | Some version => Set_add version versions
           | None => versions
           end) [] files.

(** [bucket.getFiles()]: the names of all the objects. *)
Definition getAllFiles (bucket : Bucket) : list string := (map_to_list bucket).*1.

(** listFirmwareVersions on the listing of a bucket. *)
Definition listFirmwareVersions_of (bucket : Bucket) : list string :=
  listFirmwareVersions (getAllFiles bucket).

End Storage.

(** ** Login (routes/auth.js) and the token middleware *)

Module Auth.
Import Js Db.

Section Login.

(** [jwt.sign({ id, username }, secret, { expiresIn: '1m' })]. *)
Variable jwt_sign : Z → string → string.

(** POST /login *)
Definition login (db : Database) (username password : string) : response :=
  match findUserByUsername db username with
  | (Some _, _) => json_error 500 "Internal Server Error"
  | (None, None) => json_error 400 "Invalid credentials"
  | (None, Some user) =>
      if negb (String.eqb (u_password user) password)
      then json_error 400 "Invalid credentials"
      else {| status := 200;
              body := JObject [("token"%string,
                                JString (jwt_sign (u_id user) (u_username user)))] |}
  end.

End Login.

(** [s.replace(pattern, replacement)] with a string pattern: the first
    occurrence is replaced (the replacement has no [$]). *)
Fixpoint skip (n : nat) (s : string) : string :=
  match n, s with
  | O, _ => s
  | S n', String _ s' => skip n' s'
  | S _, EmptyString => EmptyString
  end.

Fixpoint replace_first (pattern replacement s : string) : string :=
  if String.prefix pattern s
  then replacement +:+ skip (String.length pattern) s
  else match s with
       | EmptyString => EmptyString
       | String c s' => String c (replace_first pattern replacement s')
       end.

(** What a middleware does: hands over to the next handler with
    [req.user] set, or answers. *)
Inductive passage : Type :=
| Next (user : jsval) : passage
| Answer (r : response) : passage.

Section Verify.

(** [jwt.verify(token, secret)]: the decoded payload, or [None] when it
    throws. *)
Variable jwt_verify : string → option jsval.

(** verifyToken; [authorization] is [req.headers['authorization']]. *)
Definition verifyToken (authorization : option string) : passage :=
  match authorization with
  | None => Answer (json_error 401 "Access denied")
  | Some token =>
      if String.eqb token ""
      then Answer (json_error 401 "Access denied")
      else
        let tokenWithoutBearer := replace_first "Bearer " "" token in
        match jwt_verify tokenWithoutBearer with
        | Some decoded => Next decoded
        | None => Answer (json_error 400 "Invalid token")
        end
  end.

End Verify.

End Auth.

(** ** Invariants of the store *)

Module Invariant.
Import Js Db.

(** Row ids grow with the insertion order. *)
Definition rowids_increasing {A : Type} (id : A → Z) (rows : list A) : Prop :=
  StronglySorted (λ a b, id a < id b) rows.

(** What every store built by the operations satisfies. *)
Definition store_ok (db : Database) : Prop :=
  rowids_increasing sd_id (SensorData db)
  ∧ rowids_increasing sm_id (SerialMessages db)
  ∧ rowids_increasing lsf_id (LatestStableFirmware db)
  ∧ rowids_increasing u_id (users db)
  ∧ NoDup (map u_username (users db))
  ∧ Forall (λ r, sm_message r ≠ Sqlite3.SqlNull) (SerialMessages db).

(** Every pointer row holds a version that passes the pattern. *)
Definition pointer_versions_valid (db : Database) : Prop :=
  Forall (λ r, ∃ v, lsf_firmwareVersion r = Some v ∧ Db.validateFirmwareVersion v = true)
         (LatestStableFirmware db).

End Invariant.

(** ** The specification's vocabulary *)

Module Spec.

(** "a sequence of digits": one digit or more. *)
Definition digits (s : string) : Prop :=
  s ≠ ""%string ∧ Forall (λ c, Regex.is_digit c = true) (list_ascii_of_string s).

(** "a valid major.minor.patch string". *)
Definition major_minor_patch (v : string) : Prop :=
  ∃ major minor patch : string,
    digits major ∧ digits minor ∧ digits patch ∧
    v = major +:+ "." +:+ minor +:+ "." +:+ patch.

(** "a non-empty string consisting only of digits and dots". *)
Definition digits_and_dots (s : string) : Prop :=
  s ≠ ""%string ∧ Forall (λ c, Regex.is_digit_or_dot c = true) (list_ascii_of_string s).

(** The object key of a version's binary. *)
Definition firmware_key (v : string) : string := "firmware/" +:+ v +:+ "/firmware.bin".

(** Timestamps strictly below the current second. *)
Definition all_before (now : Z) (rows : list Db.FirmwareRow) : Prop :=
  Forall (λ r, Db.lsf_timestamp r < now) rows.

End Spec.

(** ** Sample inputs *)

Module Samples.
Import Js.

(** The telemetry payload of the specification's example. *)
Definition data_fields : list (string * jsval) :=
  [("messageType"%string, JString "data");
   ("temperature"%string, JNumber (43 # 2));
   ("humidity"%string, JNumber (40 # 1));
   ("heaterState"%string, JString "ON");
   ("deviceID"%string, JString "d1");
   ("version"%string, JString "1.0.0")].

Definition serial_fields : list (string * jsval) :=
  [("messageType"%string, JString "serial");
   ("serialMessage"%string, JString "boot ok")].

Definition unknown_fields : list (string * jsval) :=
  [("messageType"%string, JString "unknown")].

(** A stand-in for [JSON.parse] on four payloads. *)
Definition sample_parse (message : string) : option jsval :=
  if String.eqb message "not json" then None
  else if String.eqb message "serial"
  then Some (JObject serial_fields)
  else if String.eqb message "unknown"
  then Some (JObject unknown_fields)
  else Some (JObject data_fields).

(** A parser that yields a data message without any telemetry. *)
Definition bare_data_parse (message : string) : option jsval :=
  Some (JObject [("messageType"%string, JString "data")]).

(** A data message whose temperature is an object:
    [{ messageType: 'data', temperature: { a: 1 } }]. *)
Definition object_temperature_fields : list (string * jsval) :=
  [("messageType"%string, JString "data");
   ("temperature"%string, JObject [("a"%string, JNumber 1)])].

Definition object_temperature_parse (message : string) : option jsval :=
  Some (JObject object_temperature_fields).

End Samples.

(** * Properties *)

(** ** Strings as lists of code units *)

Lemma list_ascii_of_string_app (a b : string) :
  list_ascii_of_string (a +:+ b) = list_ascii_of_string a ++ list_ascii_of_string b.
Proof.
  induction a as [|c a IH]; simpl; [reflexivity|]. now rewrite IH.
Qed.

Lemma list_ascii_of_string_inj (a b : string) :
  list_ascii_of_string a = list_ascii_of_string b → a = b.
Proof.
  intros H. rewrite <- (string_of_list_ascii_of_string a),
    <- (string_of_list_ascii_of_string b). now rewrite H.
Qed.

Lemma list_ascii_of_string_nil (a : string) :
  list_ascii_of_string a = [] ↔ a = ""%string.
Proof.
  split; [|intros ->; reflexivity].
  intros H. now apply list_ascii_of_string_inj.
Qed.

Lemma append_assoc (a b c : string) : (a +:+ b) +:+ c = a +:+ (b +:+ c).
Proof.
  induction a as [|x a IH]; [reflexivity|].
  change (String x ((a +:+ b) +:+ c) = String x (a +:+ (b +:+ c))).
  now rewrite IH.
Qed.

Lemma prefix_append (p s : string) : String.prefix p (p +:+ s) = true.
Proof.
  induction p as [|c p IH].
  - now destruct s.
  - change (String.prefix (String c p) (String c (p +:+ s)) = true). simpl.
    destruct (ascii_dec c c); [exact IH|congruence].
Qed.

(** ** The derivative matcher decides the meaning of a pattern *)

Section RegexFacts.
Import Regex.

Lemma nullable_Matches (r : regex) : nullable r = true ↔ Matches r [].
Proof.
  split.
  - induction r; simpl; intros H; try discriminate.
    + constructor.
    + apply andb_true_iff in H as [H1 H2].
      apply (MCat _ _ [] []); auto.
    + apply orb_true_iff in H as [H|H]; [apply MAltL|apply MAltR]; auto.
    + constructor.
  - intros H. remember [] as s eqn:Hs.
    induction H; simpl; subst; auto; try discriminate.
    + apply app_eq_nil in Hs as [-> ->].
      rewrite IHMatches1, IHMatches2; auto.
    + rewrite IHMatches; auto.
    + rewrite IHMatches; auto. apply orb_true_r.
Qed.

Lemma Matches_Cat (r1 r2 : regex) (s : list ascii) :
  Matches (Cat r1 r2) s ↔ ∃ s1 s2, s = s1 ++ s2 ∧ Matches r1 s1 ∧ Matches r2 s2.
Proof.
  split.
  - inversion 1; subst; eauto.
  - intros (s1 & s2 & -> & H1 & H2). now constructor.
Qed.

Lemma Matches_Star_cons (r : regex) (c : ascii) (s : list ascii) :
  Matches (Star r) (c :: s) →
  ∃ s1 s2, s = s1 ++ s2 ∧ Matches r (c :: s1) ∧ Matches (Star r) s2.
Proof.
  intros H. remember (Star r) as r' eqn:Hr. remember (c :: s) as w eqn:Hw.
  induction H; try discriminate.
  injection Hr as ->.
  destruct s1 as [|c' s1]; simpl in Hw.
  - apply IHMatches2; auto.
  - injection Hw as Hc Hs. subst c' s. eauto.
Qed.

Lemma deriv_Matches (r : regex) (c : ascii) (s : list ascii) :
  Matches (deriv c r) s ↔ Matches r (c :: s).
Proof.
  revert s. induction r as [| |p|r1 IH1 r2 IH2|r1 IH1 r2 IH2|r IH]; intros s; simpl.
  - split; inversion 1.
  - split; inversion 1.
  - destruct (p c) eqn:Hp; split; intros H.
    + inversion H; subst. now constructor.
    + inversion H; subst. constructor.
    + inversion H.
    + inversion H; subst. congruence.
  - split.
    + intros H. destruct (nullable r1) eqn:Hn.
      * inversion H as [| | |? ? ? HL|? ? ? HR| |]; subst.
        -- apply Matches_Cat in HL as (s1 & s2 & -> & H1 & H2).
           apply IH1 in H1. apply (MCat _ _ (c :: s1) s2); auto.
        -- apply IH2 in HR. apply nullable_Matches in Hn.
           apply (MCat _ _ [] (c :: s)); auto.
      * apply Matches_Cat in H as (s1 & s2 & -> & H1 & H2).
        apply IH1 in H1. apply (MCat _ _ (c :: s1) s2); auto.
    + intros H. apply Matches_Cat in H as (s1 & s2 & Hs & H1 & H2).
      destruct s1 as [|c' s1]; simpl in Hs.
      * subst s2. apply nullable_Matches in H1. rewrite H1.
        apply MAltR. now apply IH2.
      * injection Hs as <- ->.
        assert (Matches (Cat (deriv c r1) r2) (s1 ++ s2)) as HC.
        { constructor; auto. now apply IH1. }
        destruct (nullable r1); [now apply MAltL|exact HC].
  - split; intros H.
    + inversion H; subst; [apply MAltL; now apply IH1|apply MAltR; now apply IH2].
    + inversion H; subst; [apply MAltL; now apply IH1|apply MAltR; now apply IH2].
  - split; intros H.
    + apply Matches_Cat in H as (s1 & s2 & -> & H1 & H2).
      apply IH in H1. apply (MStarCons _ (c :: s1) s2); auto.
    + apply Matches_Star_cons in H as (s1 & s2 & -> & H1 & H2).
      constructor; auto. now apply IH.
Qed.

Lemma re_match_iff (r : regex) (s : list ascii) :
  re_match r s = true ↔ Matches r s.
Proof.
  revert r. induction s as [|c s IH]; intros r; simpl.
  - apply nullable_Matches.
  - rewrite IH. apply deriv_Matches.
Qed.

End RegexFacts.

(** ** The patterns of the sources, read as sets of strings *)

Section PatternFacts.
Import Regex.

Lemma Matches_Class (p : ascii → bool) (s : list ascii) :
  Matches (Class p) s ↔ ∃ c, s = [c] ∧ p c = true.
Proof.
  split.
  - inversion 1; subst; eauto.
  - intros (c & -> & Hp). now constructor.
Qed.

Lemma Matches_Chr (c : ascii) (s : list ascii) : Matches (Chr c) s ↔ s = [c].
Proof.
  unfold Chr. rewrite Matches_Class. split.
  - intros (c' & -> & Hc). apply Ascii.eqb_eq in Hc. now subst.
  - intros ->. exists c. split; [reflexivity|apply Ascii.eqb_refl].
Qed.

Lemma Matches_Lit (w s : list ascii) : Matches (Lit w) s ↔ s = w.
Proof.
  revert s. induction w as [|c w IH]; intros s; simpl.
  - split; [inversion 1; reflexivity|intros ->; constructor].
  - rewrite Matches_Cat. split.
    + intros (s1 & s2 & -> & H1 & H2).
      apply Matches_Chr in H1 as ->. apply IH in H2 as ->. reflexivity.
    + intros ->. exists [c], w. repeat split.
      * now apply Matches_Chr.
      * now apply IH.
Qed.

Lemma Matches_Star_Class (p : ascii → bool) (s : list ascii) :
  Matches (Star (Class p)) s ↔ Forall (λ c, p c = true) s.
Proof.
  split.
  - intros H. remember (Star (Class p)) as r eqn:Hr.
    induction H; try discriminate.
    + constructor.
    + injection Hr as ->.
      apply Matches_Class in H as (c & -> & Hc).
      constructor; auto.
  - induction 1 as [|c s Hc _ IH].
    + constructor.
    + apply (MStarCons _ [c] s); auto. now constructor.
Qed.

Lemma Matches_Plus_Class (p : ascii → bool) (s : list ascii) :
  Matches (Plus (Class p)) s ↔ s ≠ [] ∧ Forall (λ c, p c = true) s.
Proof.
  unfold Plus. rewrite Matches_Cat. split.
  - intros (s1 & s2 & -> & H1 & H2).
    apply Matches_Class in H1 as (c & -> & Hc).
    apply Matches_Star_Class in H2.
    split; [discriminate|constructor; auto].
  - intros [Hne H]. destruct H as [|c s Hc H]; [congruence|].
    exists [c], s. repeat split.
    + now constructor.
    + now apply Matches_Star_Class.
Qed.

Lemma digits_Matches (s : string) :
  Spec.digits s ↔ Matches (Plus (Class is_digit)) (list_ascii_of_string s).
Proof.
  unfold Spec.digits. rewrite Matches_Plus_Class, list_ascii_of_string_nil.
  reflexivity.
Qed.

(** The persistence layer's test accepts exactly the strings the
    specification calls valid. *)
Lemma validateFirmwareVersion_spec (v : string) :
  Db.validateFirmwareVersion v = true ↔ Spec.major_minor_patch v.
Proof.
  unfold Db.validateFirmwareVersion, test, Db.versionPattern.
  rewrite re_match_iff. split.
  - intros H.
    apply Matches_Cat in H as (l1 & t1 & Hv & H1 & H).
    apply Matches_Cat in H as (d1 & t2 & -> & Hd1 & H).
    apply Matches_Cat in H as (l2 & t3 & -> & H2 & H).
    apply Matches_Cat in H as (d2 & l3 & -> & Hd2 & H3).
    apply Matches_Chr in Hd1 as ->. apply Matches_Chr in Hd2 as ->.
    exists (string_of_list_ascii l1), (string_of_list_ascii l2),
      (string_of_list_ascii l3).
    rewrite !digits_Matches, !list_ascii_of_string_of_list_ascii.
    repeat split; auto.
    apply list_ascii_of_string_inj.
    rewrite !list_ascii_of_string_app, !list_ascii_of_string_of_list_ascii.
    exact Hv.
  - intros (major & minor & patch & Hmaj & Hmin & Hpat & ->).
    apply digits_Matches in Hmaj, Hmin, Hpat.
    rewrite !list_ascii_of_string_app.
    repeat (constructor; auto); now apply Matches_Chr.
Qed.

Lemma validateFirmwareVersion_false (v : string) :
  ¬ Spec.major_minor_patch v → Db.validateFirmwareVersion v = false.
Proof.
  intros H. destruct (Db.validateFirmwareVersion v) eqn:E; [|reflexivity].
  now apply validateFirmwareVersion_spec in E.
Qed.

End PatternFacts.

(** ** Selecting the latest row; the stable-firmware pointer *)

Section OrderingFacts.
Import Js Db.

Lemma latest_fold_None {A : Type} (key : A → Z) (rows : list A) (acc : option A) :
  foldl (λ best r,
           match best with
           | None => Some r
           | Some b => if key b <? key r then Some r else Some b
           end) acc rows = None ↔ acc = None ∧ rows = [].
Proof.
  revert acc. induction rows as [|r rows IH]; intros acc; simpl.
  - split; [intros ->; auto|intros [-> _]; reflexivity].
  - rewrite IH. split; [|intros [_ H]; discriminate].
    intros [H _]. destruct acc as [b|]; [|discriminate].
    destruct (key b <? key r); discriminate.
Qed.

Lemma latest_fold_Some {A : Type} (key : A → Z) (rows : list A) (acc : option A) (b : A) :
  foldl (λ best r,
           match best with
           | None => Some r
           | Some b => if key b <? key r then Some r else Some b
           end) acc rows = Some b →
  (acc = Some b ∨ b ∈ rows)
  ∧ Forall (λ r, key r ≤ key b) rows
  ∧ (∀ a, acc = Some a → key a ≤ key b).
Proof.
  revert acc. induction rows as [|r rows IH]; intros acc; simpl.
  - intros ->. repeat split; auto.
    intros a [= ->]. lia.
  - intros H. apply IH in H as (Hin & Hall & Hacc).
    destruct acc as [a0|].
    + destruct (key a0 <? key r) eqn:E.
      * apply Z.ltb_lt in E. pose proof (Hacc r eq_refl).
        repeat split.
        -- right. destruct Hin as [[= ->]|Hin]; [left|right]; auto.
        -- constructor; auto.
        -- intros a [= ->]. lia.
      * apply Z.ltb_ge in E. pose proof (Hacc a0 eq_refl).
        repeat split.
        -- destruct Hin as [Hin|Hin]; [left|right; right]; auto.
        -- constructor; auto. lia.
        -- intros a [= ->]. lia.
    + pose proof (Hacc r eq_refl). repeat split.
      * right. destruct Hin as [[= ->]|Hin]; [left|right]; auto.
      * constructor; auto.
      * intros a [=].
Qed.

(** No row is selected exactly when the table is empty. *)
Lemma order_by_desc_None {A : Type} (key : A → Z) (rows : list A) :
  order_by_desc_limit_1 key rows = None ↔ rows = [].
Proof.
  unfold order_by_desc_limit_1. rewrite latest_fold_None. tauto.
Qed.

(** The selected row is a row of the table with the greatest key. *)
Lemma order_by_desc_Some {A : Type} (key : A → Z) (rows : list A) (b : A) :
  order_by_desc_limit_1 key rows = Some b →
  b ∈ rows ∧ Forall (λ r, key r ≤ key b) rows.
Proof.
  intros H. apply latest_fold_Some in H as ([[=]|Hin] & Hall & _). auto.
Qed.

(** A row whose key is strictly above all the others is the one selected. *)
Lemma order_by_desc_snoc {A : Type} (key : A → Z) (rows : list A) (new : A) :
  Forall (λ r, key r < key new) rows →
  order_by_desc_limit_1 key (rows ++ [new]) = Some new.
Proof.
  intros Hall. unfold order_by_desc_limit_1.
  rewrite foldl_app. simpl.
  fold (order_by_desc_limit_1 key rows).
  destruct (order_by_desc_limit_1 key rows) as [b|] eqn:E; [|reflexivity].
  apply order_by_desc_Some in E as [Hin _].
  rewrite Forall_forall in Hall. apply Hall in Hin.
  apply Z.ltb_lt in Hin. now rewrite Hin.
Qed.

(** C1 (amended).  For every valid major.minor.patch string,
    setLatestStableFirmwareVersion succeeds by appending a pointer row
    stamped with the current second, and when that second is strictly
    later than the timestamp of every row already in the table, a
    subsequent fetchLatestStableFirmwareVersion returns the version just
    set. *)
Theorem set_then_fetch_returns_newest (db : Database) (now : Z) (v : string) :
  Spec.major_minor_patch v →
  Spec.all_before now (LatestStableFirmware db) →
  (setLatestStableFirmwareVersion db now v).2
    = (None, Some (JObject [("message"%string, JString set_success_message)]))
  ∧ LatestStableFirmware (setLatestStableFirmwareVersion db now v).1
    = LatestStableFirmware db
      ++ [{| lsf_id := next_rowid (map lsf_id (LatestStableFirmware db));
             lsf_firmwareVersion := Some v;
             lsf_timestamp := now |}]
  ∧ fetchLatestStableFirmwareVersion (setLatestStableFirmwareVersion db now v).1
    = (None, Some {| firmwareVersion := Some v |}).
Proof.
  intros Hv Hbefore. apply validateFirmwareVersion_spec in Hv.
  unfold setLatestStableFirmwareVersion, fetchLatestStableFirmwareVersion.
  rewrite Hv. simpl. repeat split.
  rewrite order_by_desc_snoc; [reflexivity|exact Hbefore].
Qed.

Lemma set_then_fetch_returns_newest_witness :
  fetchLatestStableFirmwareVersion
    (setLatestStableFirmwareVersion
       (setLatestStableFirmwareVersion empty_db 100 "1.0.0").1 101 "2.0.0").1
  = (None, Some {| firmwareVersion := Some "2.0.0"%string |}).
Proof.
  apply (set_then_fetch_returns_newest
           (setLatestStableFirmwareVersion empty_db 100 "1.0.0").1 101 "2.0.0").
  - apply validateFirmwareVersion_spec. vm_compute. reflexivity.
  - vm_compute. repeat constructor.
Defined.

(** C1 (as stated), refuted: two valid versions set within the same clock
    second; both calls succeed, the table ends with the row of "2.0.0",
    and the fetch returns "1.0.0". *)
Lemma same_second_fetch_returns_older :
  Spec.major_minor_patch "1.0.0" ∧ Spec.major_minor_patch "2.0.0"
  ∧ (setLatestStableFirmwareVersion
       (setLatestStableFirmwareVersion empty_db 100 "1.0.0").1 100 "2.0.0").2
    = (None, Some (JObject [("message"%string, JString set_success_message)]))
  ∧ lsf_firmwareVersion
      <$> last (LatestStableFirmware
                  (setLatestStableFirmwareVersion
                     (setLatestStableFirmwareVersion empty_db 100 "1.0.0").1
                     100 "2.0.0").1)
    = Some (Some "2.0.0"%string)
  ∧ fetchLatestStableFirmwareVersion
      (setLatestStableFirmwareVersion
         (setLatestStableFirmwareVersion empty_db 100 "1.0.0").1 100 "2.0.0").1
    = (None, Some {| firmwareVersion := Some "1.0.0"%string |}).
Proof.
  split; [|split].
  - apply validateFirmwareVersion_spec. vm_compute. reflexivity.
  - apply validateFirmwareVersion_spec. vm_compute. reflexivity.
  - vm_compute. repeat split.
Qed.

End OrderingFacts.

(** ** Validation in the persistence layer *)

Section ValidationFacts.
Import Js Db.

(** C5.  For every string that is not a major.minor.patch string,
    setLatestStableFirmwareVersion hands its callback the validation
    error and writes nothing: the store is returned as it was.  The check
    is the persistence layer's own; the route in front of it refuses the
    same strings with a 400 before calling it. *)
Theorem malformed_version_rejected_without_write (db : Database) (now : Z) (v : string) :
  ¬ Spec.major_minor_patch v →
  setLatestStableFirmwareVersion db now v
    = (db, (Some (JObject [("error"%string, JString invalid_version_message)]), None))
  ∧ LatestStableFirmware (setLatestStableFirmwareVersion db now v).1
    = LatestStableFirmware db
  ∧ Routes.set_stable_latest_version db now (Some v)
    = (db, json_error 400 invalid_version_message).
Proof.
  intros Hv. apply validateFirmwareVersion_false in Hv.
  unfold setLatestStableFirmwareVersion, Routes.set_stable_latest_version,
    Routes.validateFirmwareVersion.
  fold (validateFirmwareVersion v). rewrite Hv. simpl.
  rewrite orb_true_r. repeat split.
Qed.

Lemma malformed_version_rejected_without_write_witness :
  (¬ Spec.major_minor_patch "1.0"
   ∧ setLatestStableFirmwareVersion empty_db 100 "1.0"
     = (empty_db,
        (Some (JObject [("error"%string, JString invalid_version_message)]), None)))
  ∧ (¬ Spec.major_minor_patch "v1.0.0"
     ∧ setLatestStableFirmwareVersion empty_db 100 "v1.0.0"
       = (empty_db,
          (Some (JObject [("error"%string, JString invalid_version_message)]), None)))
  ∧ (¬ Spec.major_minor_patch "1.0.0.0"
     ∧ setLatestStableFirmwareVersion empty_db 100 "1.0.0.0"
       = (empty_db,
          (Some (JObject [("error"%string, JString invalid_version_message)]), None))).
Proof.
  assert (∀ v, validateFirmwareVersion v = false → ¬ Spec.major_minor_patch v) as Hno.
  { intros v E H. apply validateFirmwareVersion_spec in H. congruence. }
  split; [split|split; split].
  - apply Hno. vm_compute. reflexivity.
  - apply (malformed_version_rejected_without_write empty_db 100 "1.0").
    apply Hno. vm_compute. reflexivity.
  - apply Hno. vm_compute. reflexivity.
  - apply (malformed_version_rejected_without_write empty_db 100 "v1.0.0").
    apply Hno. vm_compute. reflexivity.
  - apply Hno. vm_compute. reflexivity.
  - apply (malformed_version_rejected_without_write empty_db 100 "1.0.0.0").
    apply Hno. vm_compute. reflexivity.
Defined.

(** C8.  GET /latest-stable-firmware answers 404 in exactly two
    situations, with one and the same response: the pointer table is
    empty, or the row the query selects (a row with the greatest
    timestamp) has a NULL or empty firmwareVersion.  In every other case
    it answers 200 with that row's firmwareVersion. *)
Theorem latest_stable_firmware_not_found_cases (db : Database) :
  (order_by_desc_limit_1 lsf_timestamp (LatestStableFirmware db) = None
   ↔ LatestStableFirmware db = [])
  ∧ (∀ r, order_by_desc_limit_1 lsf_timestamp (LatestStableFirmware db) = Some r →
          r ∈ LatestStableFirmware db
          ∧ Forall (λ r', lsf_timestamp r' ≤ lsf_timestamp r) (LatestStableFirmware db))
  ∧ (status (Routes.latest_stable_firmware db) = 404
     ↔ LatestStableFirmware db = []
       ∨ ∃ r, order_by_desc_limit_1 lsf_timestamp (LatestStableFirmware db) = Some r
              ∧ (lsf_firmwareVersion r = None ∨ lsf_firmwareVersion r = Some ""%string))
  ∧ (status (Routes.latest_stable_firmware db) = 404 →
     Routes.latest_stable_firmware db
     = json_error 404 "No stable firmware version found")
  ∧ (status (Routes.latest_stable_firmware db) ≠ 404 →
     ∃ r v, order_by_desc_limit_1 lsf_timestamp (LatestStableFirmware db) = Some r
            ∧ lsf_firmwareVersion r = Some v ∧ v ≠ ""%string
            ∧ Routes.latest_stable_firmware db
              = {| status := 200;
                   body := JObject [("firmwareVersion"%string, JString v)] |}).
Proof.
  split; [apply order_by_desc_None|].
  split; [intros r; apply order_by_desc_Some|].
  unfold Routes.latest_stable_firmware, fetchLatestStableFirmwareVersion,
    Routes.latest_stable_firmware_response.
  destruct (order_by_desc_limit_1 lsf_timestamp (LatestStableFirmware db))
    as [r|] eqn:E; simpl.
  - assert (LatestStableFirmware db ≠ []) as Hne.
    { intros H. apply (order_by_desc_None lsf_timestamp) in H. congruence. }
    destruct (lsf_firmwareVersion r) as [v|] eqn:Ev; simpl.
    + destruct (String.eqb_spec v "") as [->|Hv]; simpl.
      * repeat split; eauto. intros H. now contradiction H.
      * repeat split; try discriminate.
        -- intros [H|(r' & [= <-] & [H|H])]; congruence.
        -- intros _. exists r, v. auto.
    + repeat split; eauto. intros H. now contradiction H.
  - apply order_by_desc_None in E. rewrite E.
    repeat split; auto. intros H. now contradiction H.
Qed.

End ValidationFacts.

(** ** The driver on positional arguments *)

Section DriverFacts.
Import Js Sqlite3 Db.

Lemma bound_values_six (temperature humidity fanState heaterState deviceID version : jsval) :
  is_parameter_list temperature = false →
  bound_values 6 [temperature; humidity; fanState; heaterState; deviceID; version]
  = Some [field_of temperature; field_of humidity; field_of fanState;
          field_of heaterState; field_of deviceID; field_of version].
Proof.
  intros Hlist. unfold bound_values.
  replace (Bind [temperature; humidity; fanState; heaterState; deviceID; version])
    with (positional 1 [temperature; humidity; fanState; heaterState; deviceID; version])
    by (destruct temperature; reflexivity || discriminate).
  unfold positional, field_of.
  destruct (bindParameter temperature), (bindParameter humidity),
    (bindParameter fanState), (bindParameter heaterState),
    (bindParameter deviceID), (bindParameter version); reflexivity.
Qed.

Lemma bound_values_one (v : jsval) :
  is_parameter_list v = false → bound_values 1 [v] = Some [field_of v].
Proof.
  intros Hlist. unfold bound_values.
  replace (Bind [v]) with (positional 1 [v])
    by (destruct v; reflexivity || discriminate).
  unfold positional, field_of. destruct (bindParameter v); reflexivity.
Qed.

Lemma apply_affinity_TEXT_null (c : field) :
  apply_affinity TEXT c = SqlNull ↔ c = FNull.
Proof. destruct c; simpl; split; congruence. Qed.

(** With a first value that is not read as a parameter list, insertData
    appends the row of the six values. *)
Lemma insertData_positional (db : Database) (now : Z)
    (temperature humidity fanState heaterState deviceID version : jsval) :
  is_parameter_list temperature = false →
  insertData db now temperature humidity fanState heaterState deviceID version
  = {| SensorData :=
         SensorData db
         ++ [{| sd_id := next_rowid (map sd_id (SensorData db));
                sd_temperature := stored REAL temperature;
                sd_humidity := stored REAL humidity;
                sd_fanState := stored INTEGER fanState;
                sd_heaterState := stored INTEGER heaterState;
                sd_deviceID := stored TEXT deviceID;
                sd_firmwareVersion := stored TEXT version;
                sd_timestamp := now |}];
       SerialMessages := SerialMessages db;
       LatestStableFirmware := LatestStableFirmware db;
       users := users db |}.
Proof.
  intros Hlist. unfold insertData. now rewrite bound_values_six.
Qed.

(** insertData writes nothing, or appends one row with the next id and
    the current second. *)
Lemma insertData_cases (db : Database) (now : Z)
    (temperature humidity fanState heaterState deviceID version : jsval) :
  insertData db now temperature humidity fanState heaterState deviceID version = db
  ∨ ∃ row,
      sd_id row = next_rowid (map sd_id (SensorData db))
      ∧ sd_timestamp row = now
      ∧ insertData db now temperature humidity fanState heaterState deviceID version
        = {| SensorData := SensorData db ++ [row];
             SerialMessages := SerialMessages db;
             LatestStableFirmware := LatestStableFirmware db;
             users := users db |}.
Proof.
  unfold insertData.
  destruct (bound_values 6 _) as [[|c1 [|c2 [|c3 [|c4 [|c5 [|c6 [|c7 cs]]]]]]]|];
    auto.
  right. eexists. split; [|split]; [| |reflexivity]; reflexivity.
Qed.

(** insertSerialMessage writes nothing, or appends one row with the next
    id and a message that is not NULL. *)
Lemma insertSerialMessage_cases (db : Database) (m : jsval) :
  insertSerialMessage db m = db
  ∨ ∃ row,
      sm_id row = next_rowid (map sm_id (SerialMessages db))
      ∧ sm_message row ≠ SqlNull
      ∧ insertSerialMessage db m
        = {| SensorData := SensorData db;
             SerialMessages := SerialMessages db ++ [row];
             LatestStableFirmware := LatestStableFirmware db;
             users := users db |}.
Proof.
  unfold insertSerialMessage.
  destruct (bound_values 1 _) as [[|c [|c' cs]]|]; auto; [|destruct c; auto].
  destruct c; [now left|right..];
    (eexists; split; [|split]; [| |reflexivity]; simpl; congruence).
Qed.

Lemma insertSerialMessage_positional (db : Database) (m : jsval) :
  is_parameter_list m = false →
  insertSerialMessage db m
  = match field_of m with
    | FNull => db
    | c => {| SensorData := SensorData db;
              SerialMessages :=
                SerialMessages db
                ++ [{| sm_id := next_rowid (map sm_id (SerialMessages db));
                       sm_message := apply_affinity TEXT c |}];
              LatestStableFirmware := LatestStableFirmware db;
              users := users db |}
    end.
Proof.
  intros Hlist. unfold insertSerialMessage. rewrite bound_values_one by exact Hlist.
  destruct (field_of m); reflexivity.
Qed.

End DriverFacts.

(** ** Liveness *)

Section LivenessFacts.
Import Js Db.

Lemma next_rowid_above (ids : list Z) : Forall (λ i, i < next_rowid ids) ids.
Proof.
  unfold next_rowid. induction ids as [|i ids IH]; simpl; constructor.
  - lia.
  - eapply Forall_impl; [exact IH|]. simpl. intros j Hj. lia.
Qed.

(** The reading just inserted is the one [ORDER BY id DESC LIMIT 1] selects. *)
Lemma insertData_is_most_recent (db : Database) (now : Z)
    (temperature humidity fanState heaterState deviceID version : jsval) :
  Sqlite3.is_parameter_list temperature = false →
  sd_timestamp
    <$> order_by_desc_limit_1 sd_id
          (SensorData (insertData db now temperature humidity fanState heaterState
                                  deviceID version))
  = Some now.
Proof.
  intros Hlist. rewrite insertData_positional by exact Hlist. simpl.
  rewrite order_by_desc_snoc; [reflexivity|].
  simpl. pose proof (next_rowid_above (map sd_id (SensorData db))) as H.
  rewrite Forall_forall in H. apply Forall_forall. intros r Hr.
  apply H. apply list_elem_of_fmap. eauto.
Qed.

(** C2.  checkDeviceStatus answers from the reading with the greatest id,
    if there is one: Offline with lastSeen "N/A" on an empty table; Online
    with the reading's timestamp when its age in seconds is at most 30
    (30 included); Offline with the reading's timestamp when the age is
    above 30. *)
Theorem device_status_by_age (db : Database) (now : Z) :
  (order_by_desc_limit_1 sd_id (SensorData db) = None ↔ SensorData db = [])
  ∧ (SensorData db = [] →
     checkDeviceStatus db now
     = (Some {| ds_status := "Offline"; ds_lastSeen := SeenText "N/A" |}, None))
  ∧ (∀ r, order_by_desc_limit_1 sd_id (SensorData db) = Some r →
       (r ∈ SensorData db ∧ Forall (λ r', sd_id r' ≤ sd_id r) (SensorData db))
       ∧ (now - sd_timestamp r ≤ 30 →
          checkDeviceStatus db now
          = (Some {| ds_status := "Online"; ds_lastSeen := SeenAt (sd_timestamp r) |},
             None))
       ∧ (now - sd_timestamp r = 30 →
          checkDeviceStatus db now
          = (Some {| ds_status := "Online"; ds_lastSeen := SeenAt (sd_timestamp r) |},
             None))
       ∧ (30 < now - sd_timestamp r →
          checkDeviceStatus db now
          = (Some {| ds_status := "Offline"; ds_lastSeen := SeenAt (sd_timestamp r) |},
             None))).
Proof.
  split; [apply order_by_desc_None|]. split.
  - intros E. unfold checkDeviceStatus, status_query. now rewrite E.
  - intros r E. split; [now apply order_by_desc_Some|].
    assert (∀ b : bool,
               (now - sd_timestamp r <=? 30) = b →
               checkDeviceStatus db now
               = (Some {| ds_status := if b then "Online" else "Offline";
                          ds_lastSeen := SeenAt (sd_timestamp r) |}, None)) as Hcase.
    { intros b Hb. unfold checkDeviceStatus, status_query, device_status_of.
      rewrite E. simpl. rewrite Hb. now destruct b. }
    repeat split; intros Hage.
    + apply (Hcase true). apply Z.leb_le. lia.
    + apply (Hcase true). apply Z.leb_le. lia.
    + apply (Hcase false). apply Z.leb_gt. lia.
Qed.

Lemma device_status_by_age_witness :
  checkDeviceStatus (insertData empty_db 100 JNull JNull JNull JNull JNull JNull) 130
  = (Some {| ds_status := "Online"; ds_lastSeen := SeenAt 100 |}, None)
  ∧ checkDeviceStatus (insertData empty_db 100 JNull JNull JNull JNull JNull JNull) 131
    = (Some {| ds_status := "Offline"; ds_lastSeen := SeenAt 100 |}, None)
  ∧ checkDeviceStatus empty_db 131
    = (Some {| ds_status := "Offline"; ds_lastSeen := SeenText "N/A" |}, None).
Proof.
  pose (db := insertData empty_db 100 JNull JNull JNull JNull JNull JNull).
  pose (r := {| sd_id := 1; sd_temperature := Sqlite3.SqlNull;
                sd_humidity := Sqlite3.SqlNull; sd_fanState := Sqlite3.SqlNull;
                sd_heaterState := Sqlite3.SqlNull; sd_deviceID := Sqlite3.SqlNull;
                sd_firmwareVersion := Sqlite3.SqlNull; sd_timestamp := 100 |}).
  split; [|split].
  - apply (device_status_by_age db 130) with (r := r); [reflexivity|simpl; lia].
  - apply (device_status_by_age db 131) with (r := r); [reflexivity|simpl; lia].
  - apply (device_status_by_age empty_db 131). reflexivity.
Defined.

End LivenessFacts.

(** ** Serial messages *)

Section SerialFacts.
Import Js Sqlite3 Db.

(** C6 (as stated), refuted: the empty string is not rejected, a row with
    an empty message is written. *)
Lemma empty_serial_message_is_stored :
  SerialMessages (insertSerialMessage empty_db (JString ""))
  = [{| sm_id := 1; sm_message := SqlText "" |}].
Proof. reflexivity. Qed.

(** C6 (amended).  For every absent message argument (undefined or null)
    insertSerialMessage creates no row, so that every stored row has a
    message that is not NULL; a string, the empty one included, is stored
    as it is. *)
Theorem absent_serial_message_rejected (db : Database) (m : jsval) :
  (m = JUndefined ∨ m = JNull → insertSerialMessage db m = db)
  ∧ (Forall (λ r, sm_message r ≠ SqlNull) (SerialMessages db) →
     Forall (λ r, sm_message r ≠ SqlNull)
            (SerialMessages (insertSerialMessage db m)))
  ∧ (∀ s, SerialMessages (insertSerialMessage db (JString s))
          = SerialMessages db
            ++ [{| sm_id := next_rowid (map sm_id (SerialMessages db));
                   sm_message := SqlText s |}]).
Proof.
  split; [|split].
  - intros [-> | ->]; reflexivity.
  - intros Hall.
    destruct (insertSerialMessage_cases db m) as [->|(row & _ & Hrow & ->)];
      [exact Hall|]. simpl.
    apply Forall_app. split; [exact Hall|]. constructor; [exact Hrow|constructor].
  - intros s. reflexivity.
Qed.

Lemma absent_serial_message_rejected_witness :
  insertSerialMessage empty_db JUndefined = empty_db
  ∧ insertSerialMessage empty_db JNull = empty_db
  ∧ Forall (λ r, sm_message r ≠ SqlNull)
           (SerialMessages (insertSerialMessage empty_db (JString "boot ok"))).
Proof.
  split; [|split].
  - apply (absent_serial_message_rejected empty_db JUndefined). now left.
  - apply (absent_serial_message_rejected empty_db JNull). now right.
  - apply (absent_serial_message_rejected empty_db (JString "boot ok")). constructor.
Defined.

End SerialFacts.

(** ** The dispatcher *)

Section DispatcherFacts.
Import Js Db Mqtt.

Lemma strict_eq_string_true (v : jsval) (lit : string) :
  strict_eq_string v lit = true ↔ v = JString lit.
Proof.
  destruct v; simpl; try (split; [discriminate|intros [=]]).
  rewrite String.eqb_eq. split; [now intros ->|now intros [= ->]].
Qed.

Lemma strict_eq_string_false (v : jsval) (lit : string) :
  v ≠ JString lit → strict_eq_string v lit = false.
Proof.
  intros H. destruct (strict_eq_string v lit) eqn:E; [|reflexivity].
  now apply strict_eq_string_true in E.
Qed.

Lemma lookup_field_missing (k : string) (fields : list (string * jsval)) :
  k ∉ fields.*1 → lookup_field k fields = JUndefined.
Proof.
  induction fields as [|[k' v] fields IH]; simpl; intros Hk; [reflexivity|].
  apply not_elem_of_cons in Hk as [Hne Hk].
  destruct (String.eqb_spec k k'); [contradiction|auto].
Qed.

Lemma on_message_data (JSON_parse : string → option jsval) (message : string)
    (fields : list (string * jsval)) :
  JSON_parse message = Some (JObject fields) →
  lookup_field "messageType" fields = JString "data" →
  on_message JSON_parse message
  = [ ConsoleLog [JString "Data Message:"];
      ConsoleLog [JString "Temperature:"; lookup_field "temperature" fields];
      ConsoleLog [JString "Humidity:"; lookup_field "humidity" fields];
      ConsoleLog [JString "Heater State:"; lookup_field "heaterState" fields];
      ConsoleLog [JString "Device ID:"; lookup_field "deviceID" fields];
      ConsoleLog [JString "Firmware Version:"; lookup_field "version" fields];
      CallInsertData (lookup_field "temperature" fields)
                     (lookup_field "humidity" fields)
                     (JBool false)
                     (lookup_field "heaterState" fields)
                     (lookup_field "deviceID" fields)
                     (lookup_field "version" fields) ].
Proof.
  intros Hp Ht. unfold on_message, classify. rewrite Hp. cbv beta iota delta [get].
  rewrite Ht. reflexivity.
Qed.

(** C3.  On every inbound payload: an object with messageType "data"
    makes exactly one insertData call, with fanState false; an object with
    messageType "serial" makes exactly one insertSerialMessage call with
    the payload's serialMessage; an object with another or no messageType,
    and any other JSON value, makes no storage call and leaves the store
    as it is; a payload that does not parse makes no storage call either:
    the exception ends in one console.error line. *)
Theorem dispatcher_classification (JSON_parse : string → option jsval)
    (db : Database) (now : Z) (message : string) :
  (∀ fields,
      JSON_parse message = Some (JObject fields) →
      lookup_field "messageType" fields = JString "data" →
      storage_calls (on_message JSON_parse message)
      = [CallInsertData (lookup_field "temperature" fields)
                        (lookup_field "humidity" fields)
                        (JBool false)
                        (lookup_field "heaterState" fields)
                        (lookup_field "deviceID" fields)
                        (lookup_field "version" fields)])
  ∧ (∀ fields,
        JSON_parse message = Some (JObject fields) →
        lookup_field "messageType" fields = JString "serial" →
        storage_calls (on_message JSON_parse message)
        = [CallInsertSerialMessage (lookup_field "serialMessage" fields)])
  ∧ (∀ fields,
        JSON_parse message = Some (JObject fields) →
        lookup_field "messageType" fields ≠ JString "data" →
        lookup_field "messageType" fields ≠ JString "serial" →
        storage_calls (on_message JSON_parse message) = []
        ∧ handle_message JSON_parse db now message = db)
  ∧ (∀ v,
        JSON_parse message = Some v →
        (∀ fields, v ≠ JObject fields) →
        storage_calls (on_message JSON_parse message) = []
        ∧ handle_message JSON_parse db now message = db)
  ∧ (JSON_parse message = None →
     on_message JSON_parse message
     = [ConsoleError [JString "Failed to parse incoming message:"; JString "SyntaxError"]]
     ∧ storage_calls (on_message JSON_parse message) = []
     ∧ handle_message JSON_parse db now message = db).
Proof.
  split; [|split; [|split; [|split]]].
  - intros fields Hp Ht. now rewrite (on_message_data _ _ _ Hp Ht).
  - intros fields Hp Ht. unfold on_message, classify. rewrite Hp. cbv beta iota delta [get].
    rewrite Ht. reflexivity.
  - intros fields Hp Hd Hs. unfold handle_message, on_message, classify.
    rewrite Hp. cbv beta iota delta [get].
    rewrite (strict_eq_string_false _ _ Hd), (strict_eq_string_false _ _ Hs).
    split; reflexivity.
  - intros v Hp Hv. unfold handle_message, on_message, classify. rewrite Hp.
    destruct v; try (split; reflexivity).
    now contradiction (Hv fields).
  - intros Hp. unfold handle_message, on_message. rewrite Hp.
    repeat split.
Qed.

Lemma dispatcher_classification_witness :
  storage_calls (on_message Samples.sample_parse "data")
  = [CallInsertData (JNumber (43 # 2)) (JNumber (40 # 1)) (JBool false)
                    (JString "ON") (JString "d1") (JString "1.0.0")]
  ∧ storage_calls (on_message Samples.sample_parse "serial")
    = [CallInsertSerialMessage (JString "boot ok")]
  ∧ storage_calls (on_message Samples.sample_parse "unknown") = []
  ∧ storage_calls (on_message Samples.sample_parse "not json") = [].
Proof.
  split; [|split; [|split]].
  - destruct (dispatcher_classification Samples.sample_parse empty_db 0 "data")
      as (H & _).
    apply (H Samples.data_fields); reflexivity.
  - destruct (dispatcher_classification Samples.sample_parse empty_db 0 "serial")
      as (_ & H & _).
    apply (H Samples.serial_fields); reflexivity.
  - destruct (dispatcher_classification Samples.sample_parse empty_db 0 "unknown")
      as (_ & _ & H & _).
    apply (H Samples.unknown_fields); [reflexivity|discriminate|discriminate].
  - destruct (dispatcher_classification Samples.sample_parse empty_db 0 "not json")
      as (_ & _ & _ & _ & H).
    apply H. reflexivity.
Defined.

(** C9 (as stated), refuted: a data message whose temperature is the
    object [{ a: 1 }]; the driver reads the object as the statement's
    parameter list, binding the name [a] fails, and no row is inserted. *)
Lemma object_temperature_inserts_no_row :
  Samples.object_temperature_parse "payload"
  = Some (JObject Samples.object_temperature_fields)
  ∧ lookup_field "messageType" Samples.object_temperature_fields = JString "data"
  ∧ storage_calls (on_message Samples.object_temperature_parse "payload")
    = [CallInsertData (JObject [("a"%string, JNumber 1)]) JUndefined (JBool false)
                      JUndefined JUndefined JUndefined]
  ∧ SensorData (handle_message Samples.object_temperature_parse empty_db 100 "payload")
    = [].
Proof. repeat split. Qed.

(** C9 (amended).  For every object payload with messageType "data" the
    dispatcher calls insertData once with the payload's properties as they
    are, fanState false; nothing is checked first.  Unless temperature is
    an object or an array, which the driver reads as the statement's whole
    parameter list, a SensorData row is inserted; a property that the
    payload lacks is undefined and is stored as NULL. *)
Theorem data_message_inserted_without_validation
    (JSON_parse : string → option jsval) (db : Database) (now : Z)
    (message : string) (fields : list (string * jsval)) :
  JSON_parse message = Some (JObject fields) →
  lookup_field "messageType" fields = JString "data" →
  storage_calls (on_message JSON_parse message)
  = [CallInsertData (lookup_field "temperature" fields)
                    (lookup_field "humidity" fields)
                    (JBool false)
                    (lookup_field "heaterState" fields)
                    (lookup_field "deviceID" fields)
                    (lookup_field "version" fields)]
  ∧ (Sqlite3.is_parameter_list (lookup_field "temperature" fields) = false →
     SensorData (handle_message JSON_parse db now message)
     = SensorData db
       ++ [{| sd_id := next_rowid (map sd_id (SensorData db));
              sd_temperature := Sqlite3.stored Sqlite3.REAL (lookup_field "temperature" fields);
              sd_humidity := Sqlite3.stored Sqlite3.REAL (lookup_field "humidity" fields);
              sd_fanState := Sqlite3.SqlNumber 0;
              sd_heaterState := Sqlite3.stored Sqlite3.INTEGER (lookup_field "heaterState" fields);
              sd_deviceID := Sqlite3.stored Sqlite3.TEXT (lookup_field "deviceID" fields);
              sd_firmwareVersion := Sqlite3.stored Sqlite3.TEXT (lookup_field "version" fields);
              sd_timestamp := now |}])
  ∧ (∀ k a, k ∉ fields.*1 →
            lookup_field k fields = JUndefined
            ∧ Sqlite3.stored a (lookup_field k fields) = Sqlite3.SqlNull).
Proof.
  intros Hp Ht. split; [|split].
  - now rewrite (on_message_data _ _ _ Hp Ht).
  - intros Hlist. unfold handle_message. rewrite (on_message_data _ _ _ Hp Ht).
    simpl. now rewrite insertData_positional by exact Hlist.
  - intros k a Hk. rewrite (lookup_field_missing _ _ Hk). split; reflexivity.
Qed.

Lemma data_message_inserted_without_validation_witness :
  SensorData (handle_message Samples.bare_data_parse empty_db 100 "payload")
  = [{| sd_id := 1;
        sd_temperature := Sqlite3.SqlNull;
        sd_humidity := Sqlite3.SqlNull;
        sd_fanState := Sqlite3.SqlNumber 0;
        sd_heaterState := Sqlite3.SqlNull;
        sd_deviceID := Sqlite3.SqlNull;
        sd_firmwareVersion := Sqlite3.SqlNull;
        sd_timestamp := 100 |}].
Proof.
  destruct (data_message_inserted_without_validation
              Samples.bare_data_parse empty_db 100 "payload"
              [("messageType"%string, JString "data")] eq_refl eq_refl)
    as (_ & H & _).
  apply H. reflexivity.
Defined.

End DispatcherFacts.

(** ** Registration *)

Section RegistrationFacts.
Import Js Db.

Lemma findUserByUsername_present (db : Database) (username : string) :
  (∃ r, r ∈ users db ∧ u_username r = username) →
  ∃ r, findUserByUsername db username = (None, Some r).
Proof.
  intros (r & Hin & Hr). unfold findUserByUsername.
  destruct (find (λ r, String.eqb (u_username r) username) (users db)) as [r'|] eqn:E.
  - eauto.
  - apply list_elem_of_In in Hin.
    pose proof (find_none _ _ E r Hin) as Hno. simpl in Hno.
    rewrite Hr, String.eqb_refl in Hno. discriminate.
Qed.

(** C7 (as stated), refuted: "alice" is registered; a second attempt
    with her username and a password that fails the password rule is
    answered with the password message, not the duplicate-username one. *)
Lemma duplicate_username_with_weak_password :
  (∃ r, r ∈ users (Routes.register empty_db "alice" "Aa1!aa").1
        ∧ u_username r = "alice"%string)
  ∧ (Routes.register (Routes.register empty_db "alice" "Aa1!aa").1 "alice" "short").2
    = json_error 400 Routes.password_rule_message
  ∧ (Routes.register (Routes.register empty_db "alice" "Aa1!aa").1 "alice" "short").2
    ≠ json_error 400 "Username already exists".
Proof.
  split; [|split].
  - exists {| u_id := 1; u_username := "alice"; u_password := "Aa1!aa" |}.
    split; [|reflexivity]. vm_compute. constructor.
  - vm_compute. reflexivity.
  - vm_compute. discriminate.
Qed.

(** C7 (amended).  For every registration attempt with a username that is
    already in the credentials store, the store is left as it was (same
    rows, same row count) and the answer is a 400, never the generic 500;
    it is the duplicate-username answer whenever the submitted username
    and password pass the format validators, which are checked first. *)
Theorem duplicate_username_registration (db : Database) (username password : string) :
  (∃ r, r ∈ users db ∧ u_username r = username) →
  (Routes.register db username password).1 = db
  ∧ length (users (Routes.register db username password).1) = length (users db)
  ∧ status (Routes.register db username password).2 = 400
  ∧ (Validator.validateUsername username = true →
     Validator.validatePassword password = true →
     (Routes.register db username password).2
     = json_error 400 "Username already exists").
Proof.
  intros Hdup. apply findUserByUsername_present in Hdup as [r Hr].
  unfold Routes.register.
  destruct (Validator.validateUsername username); cbn [negb].
  - destruct (Validator.validatePassword password); cbn [negb].
    + rewrite Hr. repeat split.
    + repeat split. discriminate.
  - repeat split. discriminate.
Qed.

Lemma duplicate_username_registration_witness :
  (Routes.register (Routes.register empty_db "alice" "Aa1!aa").1 "alice" "Bb2@bbb").2
  = json_error 400 "Username already exists".
Proof.
  apply (duplicate_username_registration
           (Routes.register empty_db "alice" "Aa1!aa").1 "alice" "Bb2@bbb").
  - exists {| u_id := 1; u_username := "alice"; u_password := "Aa1!aa" |}.
    split; [|reflexivity]. vm_compute. constructor.
  - vm_compute. reflexivity.
  - vm_compute. reflexivity.
Defined.

End RegistrationFacts.

(** ** Object storage *)

Section StorageFacts.
Import Storage.

Lemma foldl_delete_lookup (names : list string) (bucket : Bucket) (i : string) :
  foldl (λ b existingFile, delete existingFile b) bucket names !! i
  = if decide (i ∈ names) then None else bucket !! i.
Proof.
  revert bucket. induction names as [|k names IH]; intros bucket; simpl.
  - destruct (decide (i ∈ [])) as [H|_]; [|reflexivity].
    now apply elem_of_nil in H.
  - rewrite IH. destruct (decide (i ∈ names)) as [Hin|Hnot].
    + rewrite decide_True; [reflexivity|now right].
    + destruct (decide (i = k)) as [->|Hne].
      * rewrite lookup_delete_eq. rewrite decide_True; [reflexivity|now left].
      * rewrite lookup_delete_ne by congruence.
        rewrite decide_False; [reflexivity|].
        intros [?|?]%elem_of_cons; contradiction.
Qed.

Lemma elem_of_getFiles (prefix : string) (bucket : Bucket) (k : string) :
  k ∈ getFiles prefix bucket ↔ is_Some (bucket !! k) ∧ String.prefix prefix k = true.
Proof.
  unfold getFiles. rewrite list_elem_of_fmap. split.
  - intros ([k' o] & -> & Hin). simpl.
    apply elem_of_map_to_list, map_lookup_filter_Some in Hin as [Hk Hp].
    split; [eauto|exact Hp].
  - intros [[o Ho] Hp]. exists (k, o). split; [reflexivity|].
    apply elem_of_map_to_list, map_lookup_filter_Some. auto.
Qed.

(** After any upload of a version, its binary is the only object under the
    version's prefix. *)
Lemma upload_leaves_one_object (file : UploadedFile) (v : string) (bucket : Bucket) :
  objects_under v (uploadFileToFirebaseStorage file v bucket).1
  = {[ Spec.firmware_key v := {| contents := buffer file; contentType := mimetype file |} ]}.
Proof.
  unfold objects_under, uploadFileToFirebaseStorage, Spec.firmware_key. simpl.
  assert (String.prefix ("firmware/" +:+ v +:+ "/") ("firmware/" +:+ v +:+ "/firmware.bin")
          = true) as Hdest.
  { replace ("firmware/" +:+ v +:+ "/firmware.bin")
      with (("firmware/" +:+ v +:+ "/") +:+ "firmware.bin").
    - apply prefix_append.
    - rewrite !append_assoc. reflexivity. }
  apply map_eq. intros i.
  destruct (decide (i = "firmware/" +:+ v +:+ "/firmware.bin")) as [->|Hne].
  - rewrite lookup_singleton_eq. apply map_lookup_filter_Some_2.
    + apply lookup_insert_eq.
    + exact Hdest.
  - rewrite lookup_singleton_ne by congruence.
    apply map_lookup_filter_None_2.
    destruct (String.prefix ("firmware/" +:+ v +:+ "/") i) eqn:Hp.
    + left. rewrite lookup_insert_ne by congruence.
      rewrite foldl_delete_lookup.
      destruct (decide (i ∈ getFiles ("firmware/" +:+ v +:+ "/") bucket))
        as [Hin|Hnot]; [reflexivity|].
      destruct (bucket !! i) as [o|] eqn:Hi; [|reflexivity].
      exfalso. apply Hnot, elem_of_getFiles. split; [eauto|exact Hp].
    + right. intros o _. simpl. congruence.
Qed.

(** C4.  For every version string and every two uploads of it, one after
    the other, the second upload's binary is afterwards the one and only
    object under firmware/<version>/: the objects under that prefix are
    deleted before the new binary is stored at
    firmware/<version>/firmware.bin. *)
Theorem upload_twice_leaves_one_object (bucket : Bucket) (v : string)
    (file1 file2 : UploadedFile) :
  objects_under v
    (uploadFileToFirebaseStorage file2 v
       (uploadFileToFirebaseStorage file1 v bucket).1).1
  = {[ Spec.firmware_key v := {| contents := buffer file2; contentType := mimetype file2 |} ]}
  ∧ size (objects_under v
            (uploadFileToFirebaseStorage file2 v
               (uploadFileToFirebaseStorage file1 v bucket).1).1) = 1%nat
  ∧ (uploadFileToFirebaseStorage file2 v
       (uploadFileToFirebaseStorage file1 v bucket).1).2 = Spec.firmware_key v.
Proof.
  rewrite upload_leaves_one_object. repeat split.
  apply map_size_singleton.
Qed.

End StorageFacts.

(** ** Listing the stored versions *)

Section ListingFacts.
Import Regex Storage.

Lemma first_some_Some {A B : Type} (f : A → option B) (l : list A) (y : B) :
  first_some f l = Some y → ∃ x, x ∈ l ∧ f x = Some y.
Proof.
  induction l as [|x l IH]; simpl; [discriminate|].
  destruct (f x) as [y'|] eqn:E.
  - intros [= ->]. exists x. split; [left|exact E].
  - intros H. apply IH in H as (x' & Hin & Hx'). exists x'. split; [now right|exact Hx'].
Qed.

Lemma first_some_is_Some {A B : Type} (f : A → option B) (l : list A) (x : A) :
  x ∈ l → is_Some (f x) → is_Some (first_some f l).
Proof.
  induction l as [|x' l IH]; simpl; intros Hin Hx.
  - now apply elem_of_nil in Hin.
  - destruct (f x') as [y'|] eqn:E; [eauto|].
    apply elem_of_cons in Hin as [->|Hin]; [|auto].
    rewrite E in Hx. now destruct Hx.
Qed.

Lemma elem_of_splits (s a b : list ascii) : (a, b) ∈ splits s ↔ s = a ++ b.
Proof.
  revert a b. induction s as [|c s IH]; intros a b; simpl.
  - rewrite list_elem_of_singleton. split.
    + intros [= -> ->]. reflexivity.
    + intros H. symmetry in H. apply app_eq_nil in H as [-> ->]. reflexivity.
  - rewrite elem_of_app, list_elem_of_fmap, list_elem_of_singleton. split.
    + intros [([a' b'] & [= -> ->] & Hin)|[= -> ->]]; [|reflexivity].
      apply IH in Hin. simpl. now rewrite Hin.
    + destruct a as [|c' a]; simpl.
      * intros <-. now right.
      * intros [= <- ->]. left. exists (a, b). split; [reflexivity|now apply IH].
Qed.

Lemma match_group_Some (pre grp post : regex) (s g : string) :
  match_group pre grp post s = Some g →
  ∃ a b, list_ascii_of_string s = a ++ list_ascii_of_string g ++ b
         ∧ Matches pre a ∧ Matches grp (list_ascii_of_string g) ∧ Matches post b.
Proof.
  unfold match_group. intros H.
  apply first_some_Some in H as ([a r] & Hs & H). simpl in H.
  destruct (re_match pre a) eqn:Hpre; [|discriminate].
  apply first_some_Some in H as ([g' b] & Hr & H). simpl in H.
  destruct (re_match grp g' && re_match post b) eqn:Hgb; [|discriminate].
  injection H as <-. apply andb_true_iff in Hgb as [Hg Hb].
  apply elem_of_splits in Hs, Hr. subst r.
  exists a, b. rewrite list_ascii_of_string_of_list_ascii.
  repeat split; [exact Hs|..]; now apply re_match_iff.
Qed.

Lemma match_group_is_Some (pre grp post : regex) (s : string) (a g b : list ascii) :
  list_ascii_of_string s = a ++ g ++ b →
  Matches pre a → Matches grp g → Matches post b →
  is_Some (match_group pre grp post s).
Proof.
  intros Hs Ha Hg Hb. unfold match_group.
  apply (first_some_is_Some _ _ (a, g ++ b)).
  - now apply elem_of_splits.
  - simpl. apply re_match_iff in Ha, Hg, Hb. rewrite Ha.
    apply (first_some_is_Some _ _ (g, b)).
    + now apply elem_of_splits.
    + simpl. rewrite Hg, Hb. simpl. eauto.
Qed.

Lemma digits_and_dots_Matches (v : string) :
  Spec.digits_and_dots v
  ↔ Matches (Plus (Class is_digit_or_dot)) (list_ascii_of_string v).
Proof.
  unfold Spec.digits_and_dots.
  rewrite Matches_Plus_Class, list_ascii_of_string_nil. reflexivity.
Qed.

Lemma firmware_key_list (v : string) :
  list_ascii_of_string (Spec.firmware_key v)
  = list_ascii_of_string "firmware/" ++ list_ascii_of_string v
    ++ list_ascii_of_string "/firmware.bin".
Proof.
  unfold Spec.firmware_key. now rewrite !list_ascii_of_string_app.
Qed.

(** The pattern of listFirmwareVersions captures [v] exactly on the key of
    a [v] made of digits and dots. *)
Lemma match_firmware_path_spec (filePath v : string) :
  match_firmware_path filePath = Some v
  ↔ filePath = Spec.firmware_key v ∧ Spec.digits_and_dots v.
Proof.
  assert (∀ g, match_firmware_path filePath = Some g →
               filePath = Spec.firmware_key g ∧ Spec.digits_and_dots g) as Hsound.
  { intros g H. apply match_group_Some in H as (a & b & Hs & Ha & Hg & Hb).
    apply Matches_Lit in Ha as ->. apply Matches_Lit in Hb as ->.
    split; [|now apply digits_and_dots_Matches].
    apply list_ascii_of_string_inj. now rewrite firmware_key_list. }
  split; [apply Hsound|].
  intros [-> Hv].
  destruct (match_group_is_Some
              (Lit (list_ascii_of_string "firmware/"))
              (Plus (Class is_digit_or_dot))
              (Lit (list_ascii_of_string "/firmware.bin"))
              (Spec.firmware_key v)
              (list_ascii_of_string "firmware/")
              (list_ascii_of_string v)
              (list_ascii_of_string "/firmware.bin")) as [g Hg].
  - apply firmware_key_list.
  - now apply Matches_Lit.
  - now apply digits_and_dots_Matches.
  - now apply Matches_Lit.
  - fold (match_firmware_path (Spec.firmware_key v)) in Hg. rewrite Hg.
    apply Hsound in Hg as [Hkey _].
    apply (f_equal list_ascii_of_string) in Hkey.
    rewrite !firmware_key_list in Hkey.
    apply app_inv_head, app_inv_tail in Hkey.
    apply list_ascii_of_string_inj in Hkey. now subst.
Qed.

Lemma elem_of_Set_add (x version : string) (versions : list string) :
  x ∈ Set_add version versions ↔ x = version ∨ x ∈ versions.
Proof.
  unfold Set_add. destruct (decide (version ∈ versions)) as [Hin|Hnot].
  - split; [auto|]. intros [->|?]; auto.
  - rewrite elem_of_app, list_elem_of_singleton. tauto.
Qed.

Lemma NoDup_Set_add (version : string) (versions : list string) :
  NoDup versions → NoDup (Set_add version versions).
Proof.
  intros Hnd. unfold Set_add.
  destruct (decide (version ∈ versions)) as [Hin|Hnot]; [exact Hnd|].
  apply NoDup_app. repeat split; [exact Hnd| |apply NoDup_singleton].
  intros x Hx ->%list_elem_of_singleton. contradiction.
Qed.

Lemma listing_fold (files : list string) (acc : list string) :
  NoDup acc →
  NoDup (foldl (λ versions filePath,
                  match match_firmware_path filePath with
                  | Some version => Set_add version versions
                  | None => versions
                  end) acc files)
  ∧ ∀ v, v ∈ foldl (λ versions filePath,
                      match match_firmware_path filePath with
                      | Some version => Set_add version versions
                      | None => versions
                      end) acc files
         ↔ v ∈ acc ∨ ∃ filePath, filePath ∈ files ∧ match_firmware_path filePath = Some v.
Proof.
  revert acc. induction files as [|f files IH]; intros acc Hnd; simpl.
  - split; [exact Hnd|]. intros v. split; [auto|].
    intros [H|(x & Hx & _)]; [exact H|]. now apply elem_of_nil in Hx.
  - destruct (match_firmware_path f) as [version|] eqn:E.
    + destruct (IH (Set_add version acc) (NoDup_Set_add _ _ Hnd)) as [Hnd' Hiff].
      split; [exact Hnd'|]. intros v. rewrite Hiff, elem_of_Set_add. split.
      * intros [[->|H]|(x & Hx & Hm)]; [right|left|right]; eauto.
        -- exists f. split; [left|exact E].
        -- exists x. split; [now right|exact Hm].
      * intros [H|(x & Hx & Hm)]; [auto|].
        apply elem_of_cons in Hx as [->|Hx]; [|eauto].
        rewrite E in Hm. injection Hm as ->. auto.
    + destruct (IH acc Hnd) as [Hnd' Hiff].
      split; [exact Hnd'|]. intros v. rewrite Hiff. split.
      * intros [H|(x & Hx & Hm)]; [auto|]. right. exists x. split; [now right|exact Hm].
      * intros [H|(x & Hx & Hm)]; [auto|].
        apply elem_of_cons in Hx as [->|Hx]; [congruence|eauto].
Qed.

(** C10.  For every bucket listing, listFirmwareVersions returns, without
    repetition, exactly the strings [v] of digits and dots (one character
    or more) such that "firmware/" + v + "/firmware.bin" is the name of a
    listed object; names of any other shape contribute nothing.  Strings
    that are not major.minor.patch versions, such as "1..2" and "1.2.3.4",
    can therefore be returned. *)
Theorem listFirmwareVersions_exact (files : list string) :
  NoDup (listFirmwareVersions files)
  ∧ (∀ v, v ∈ listFirmwareVersions files
          ↔ Spec.digits_and_dots v ∧ Spec.firmware_key v ∈ files)
  ∧ listFirmwareVersions
      ["firmware/1..2/firmware.bin"; "firmware/1.2.3.4/firmware.bin";
       "firmware/1.0.0/notes.txt"; "firmware/1..2/firmware.bin"]%string
    = ["1..2"; "1.2.3.4"]%string
  ∧ ¬ Spec.major_minor_patch "1..2"
  ∧ ¬ Spec.major_minor_patch "1.2.3.4".
Proof.
  destruct (listing_fold files [] (NoDup_nil_2)) as [Hnd Hiff].
  split; [exact Hnd|]. split; [|split; [|split]].
  - intros v. unfold listFirmwareVersions. rewrite Hiff. split.
    + intros [H|(x & Hx & Hm)]; [now apply elem_of_nil in H|].
      apply match_firmware_path_spec in Hm as [-> Hv]. auto.
    + intros [Hv Hin]. right. exists (Spec.firmware_key v).
      split; [exact Hin|]. now apply match_firmware_path_spec.
  - vm_compute. reflexivity.
  - intros H. apply validateFirmwareVersion_spec in H. vm_compute in H. discriminate.
  - intros H. apply validateFirmwareVersion_spec in H. vm_compute in H. discriminate.
Qed.

End ListingFacts.

(** ** The credential validators, read as conditions on the characters *)

Section ValidatorFacts.
Import Regex.

Lemma length_list_ascii_of_string (s : string) :
  length (list_ascii_of_string s) = String.length s.
Proof.
  induction s as [|c s IH]; simpl; [reflexivity|]. now rewrite IH.
Qed.

Lemma Matches_AtLeast_Class (n : nat) (p : ascii → bool) (s : list ascii) :
  Matches (AtLeast n (Class p)) s
  ↔ (n ≤ length s)%nat ∧ Forall (λ c, p c = true) s.
Proof.
  revert s. induction n as [|n IH]; intros s; simpl.
  - rewrite Matches_Star_Class. split; [intros H; split; [lia|exact H]|tauto].
  - rewrite Matches_Cat. split.
    + intros (s1 & s2 & -> & H1 & H2).
      apply Matches_Class in H1 as (c & -> & Hc). apply IH in H2 as [Hn Hall].
      simpl. split; [lia|constructor; auto].
    + intros [Hn Hall]. destruct Hall as [|c s Hc Hall]; simpl in Hn; [lia|].
      exists [c], s. repeat split.
      * now constructor.
      * apply IH. split; [lia|exact Hall].
Qed.

Lemma lookahead_iff (r : regex) (s : list ascii) :
  lookahead r s = true ↔ ∃ a b, s = a ++ b ∧ Matches r a.
Proof.
  revert r. induction s as [|c s IH]; intros r; simpl.
  - rewrite orb_false_r, nullable_Matches. split.
    + intros H. exists [], []. auto.
    + intros (a & b & Hs & H). symmetry in Hs.
      apply app_eq_nil in Hs as [-> ->]. exact H.
  - rewrite orb_true_iff, nullable_Matches, IH. split.
    + intros [H|(a & b & -> & H)].
      * exists [], (c :: s). auto.
      * exists (c :: a), b. split; [reflexivity|now apply deriv_Matches].
    + intros (a & b & Hs & H). destruct a as [|c' a]; simpl in Hs.
      * now left.
      * injection Hs as <- ->. right. exists a, b.
        split; [reflexivity|now apply deriv_Matches].
Qed.

Lemma lookahead_any_then (p : ascii → bool) (s : list ascii) :
  Forall (λ c, is_dot c = true) s →
  Regex.lookahead (Validator.any_then p) s = true ↔ Exists (λ c, p c = true) s.
Proof.
  intros Hdots. rewrite lookahead_iff. unfold Validator.any_then. split.
  - intros (a & b & -> & H).
    apply Matches_Cat in H as (a' & l & -> & _ & Hl).
    apply Matches_Class in Hl as (c & -> & Hc).
    apply Exists_exists. exists c. split; [|exact Hc].
    rewrite !elem_of_app. left. right. now left.
  - intros H. apply Exists_exists in H as (c & Hin & Hc).
    apply list_elem_of_split in Hin as (a' & b & ->).
    exists (a' ++ [c]), b. split; [now rewrite <- app_assoc|].
    constructor; [|now constructor].
    apply Matches_Star_Class. now apply Forall_app in Hdots as [Ha _].
Qed.

(** X1.  validateUsername accepts exactly the strings of three or more
    characters, all of them ASCII letters, digits or underscores. *)
Theorem validateUsername_iff (username : string) :
  Validator.validateUsername username = true
  ↔ (3 ≤ String.length username)%nat
    ∧ Forall (λ c, is_word c = true) (list_ascii_of_string username).
Proof.
  unfold Validator.validateUsername, Validator.validUsername, test.
  rewrite re_match_iff, Matches_AtLeast_Class, length_list_ascii_of_string.
  reflexivity.
Qed.

(** X2.  validatePassword accepts exactly the strings of six or more
    characters, none of them a line terminator, that hold a digit, one of
    the characters [!@#$%^&*], a lower-case and an upper-case ASCII
    letter. *)
Theorem validatePassword_iff (password : string) :
  Validator.validatePassword password = true
  ↔ (6 ≤ String.length password)%nat
    ∧ Forall (λ c, is_dot c = true) (list_ascii_of_string password)
    ∧ Exists (λ c, is_digit c = true) (list_ascii_of_string password)
    ∧ Exists (λ c, is_special c = true) (list_ascii_of_string password)
    ∧ Exists (λ c, in_range "a" "z" c = true) (list_ascii_of_string password)
    ∧ Exists (λ c, in_range "A" "Z" c = true) (list_ascii_of_string password).
Proof.
  unfold Validator.validatePassword.
  rewrite !andb_true_iff, re_match_iff, Matches_AtLeast_Class,
    length_list_ascii_of_string.
  split.
  - intros ((((H1 & H2) & H3) & H4) & Hn & Hdots).
    rewrite lookahead_any_then in H1, H2, H3, H4 by exact Hdots. tauto.
  - intros (Hn & Hdots & H1 & H2 & H3 & H4).
    rewrite !lookahead_any_then by exact Hdots. tauto.
Qed.

End ValidatorFacts.

(** ** Invariants of the store *)

Section InvariantFacts.
Import Js Db Invariant.

Lemma rowids_increasing_next {A : Type} (id : A → Z) (rows : list A) (new : A) :
  rowids_increasing id rows →
  id new = next_rowid (map id rows) →
  rowids_increasing id (rows ++ [new]).
Proof.
  intros Hinc Hid. apply StronglySorted_app_2.
  - intros r x Hr ->%list_elem_of_singleton. rewrite Hid.
    pose proof (next_rowid_above (map id rows)) as H.
    rewrite Forall_forall in H. apply H, list_elem_of_fmap. eauto.
  - exact Hinc.
  - repeat constructor.
Qed.

Lemma rowids_increasing_inj {A : Type} (id : A → Z) (rows : list A) (x y : A) :
  rowids_increasing id rows → x ∈ rows → y ∈ rows → id x = id y → x = y.
Proof.
  induction 1 as [|r rows _ IH Hr]; intros Hx Hy Hid.
  - now apply elem_of_nil in Hx.
  - rewrite Forall_forall in Hr.
    apply elem_of_cons in Hx as [->|Hx]; apply elem_of_cons in Hy as [->|Hy]; auto.
    + apply Hr in Hy. lia.
    + apply Hr in Hx. lia.
Qed.

(** With ids growing, the greatest id is the last row's. *)
Lemma order_by_desc_last {A : Type} (id : A → Z) (rows : list A) :
  rowids_increasing id rows → order_by_desc_limit_1 id rows = last rows.
Proof.
  intros Hinc. destruct rows as [|r0 rows0] using rev_ind; [reflexivity|].
  rewrite last_snoc. apply order_by_desc_snoc.
  apply StronglySorted_app in Hinc as (Hlt & _ & _).
  apply Forall_forall. intros r Hr. apply Hlt; [exact Hr|now left].
Qed.

Lemma insertData_ok (db : Database) (now : Z)
    (temperature humidity fanState heaterState deviceID version : jsval) :
  store_ok db →
  store_ok (insertData db now temperature humidity fanState heaterState deviceID version).
Proof.
  intros Hok.
  destruct (insertData_cases db now temperature humidity fanState heaterState
              deviceID version) as [->|(row & Hid & _ & ->)]; [exact Hok|].
  destruct Hok as (H1 & H2 & H3 & H4 & H5 & H6). unfold store_ok. simpl.
  repeat split; auto. now apply rowids_increasing_next.
Qed.

Lemma insertSerialMessage_ok (db : Database) (m : jsval) :
  store_ok db → store_ok (insertSerialMessage db m).
Proof.
  intros Hok.
  destruct (insertSerialMessage_cases db m) as [->|(row & Hid & Hrow & ->)];
    [exact Hok|].
  destruct Hok as (H1 & H2 & H3 & H4 & H5 & H6). unfold store_ok. simpl.
  repeat split; auto.
  - now apply rowids_increasing_next.
  - apply Forall_app. split; [exact H6|]. repeat constructor. exact Hrow.
Qed.

Lemma setLatestStableFirmwareVersion_ok (db : Database) (now : Z) (v : string) :
  store_ok db → store_ok (setLatestStableFirmwareVersion db now v).1.
Proof.
  intros (H1 & H2 & H3 & H4 & H5 & H6). unfold setLatestStableFirmwareVersion.
  destruct (validateFirmwareVersion v) eqn:E; simpl; [|repeat split; auto].
  unfold store_ok. simpl. repeat split; auto.
  now apply rowids_increasing_next.
Qed.

Lemma existsb_username_false (rows : list UserRow) (username : string) :
  existsb (λ r, String.eqb (u_username r) username) rows = false →
  username ∉ map u_username rows.
Proof.
  intros E Hin. apply list_elem_of_fmap in Hin as (r & -> & Hr).
  assert (existsb (λ r', String.eqb (u_username r') (u_username r)) rows = true) as Ht.
  { apply existsb_exists. exists r. split; [now apply list_elem_of_In|].
    apply String.eqb_refl. }
  congruence.
Qed.

Lemma createUser_ok (db : Database) (username password : string) :
  store_ok db → store_ok (createUser db username password).1.
Proof.
  intros (H1 & H2 & H3 & H4 & H5 & H6). unfold createUser.
  destruct (existsb _ (users db)) eqn:E; simpl; [repeat split; auto|].
  unfold store_ok. simpl. repeat split; auto.
  - now apply rowids_increasing_next.
  - rewrite map_app. simpl. apply NoDup_app. repeat split; auto.
    + intros x Hx ->%list_elem_of_singleton.
      now apply existsb_username_false in E.
    + apply NoDup_singleton.
Qed.

Lemma perform_ok (now : Z) (db : Database) (e : Mqtt.effect) :
  store_ok db → store_ok (Mqtt.perform now db e).
Proof.
  intros Hok. destruct e; simpl; auto using insertData_ok, insertSerialMessage_ok.
Qed.

Lemma register_ok (db : Database) (username password : string) :
  store_ok db → store_ok (Routes.register db username password).1.
Proof.
  intros Hok. unfold Routes.register.
  destruct (Validator.validateUsername username); cbn [negb]; [|exact Hok].
  destruct (Validator.validatePassword password); cbn [negb]; [|exact Hok].
  destruct (findUserByUsername db username) as [[e|] [r|]]; try exact Hok.
  pose proof (createUser_ok db username password Hok) as Hc.
  destruct (createUser db username password) as [db' [e|]]; exact Hc.
Qed.

Lemma set_stable_latest_version_ok (db : Database) (now : Z) (v : option string) :
  store_ok db → store_ok (Routes.set_stable_latest_version db now v).1.
Proof.
  intros Hok. unfold Routes.set_stable_latest_version.
  destruct v as [v|]; [|exact Hok].
  destruct (String.eqb v "" || negb (Routes.validateFirmwareVersion v)); [exact Hok|].
  pose proof (setLatestStableFirmwareVersion_ok db now v Hok) as Hs.
  destruct (setLatestStableFirmwareVersion db now v) as [db' [[e|] [r|]]]; exact Hs.
Qed.

(** X3.  Every write of the persistence layer, of the dispatcher and of the
    routes keeps the store well formed: row ids grow with the insertion
    order in the four tables, usernames are pairwise distinct and no
    serial message is NULL. *)
Theorem store_ok_preserved (db : Database) :
  store_ok db →
  (∀ now temperature humidity fanState heaterState deviceID version,
      store_ok (insertData db now temperature humidity fanState heaterState
                           deviceID version))
  ∧ (∀ m, store_ok (insertSerialMessage db m))
  ∧ (∀ now v, store_ok (setLatestStableFirmwareVersion db now v).1)
  ∧ (∀ username password, store_ok (createUser db username password).1)
  ∧ (∀ JSON_parse now message, store_ok (Mqtt.handle_message JSON_parse db now message))
  ∧ (∀ username password, store_ok (Routes.register db username password).1)
  ∧ (∀ now v, store_ok (Routes.set_stable_latest_version db now v).1).
Proof.
  intros Hok. split; [|split; [|split; [|split; [|split; [|split]]]]].
  - intros. now apply insertData_ok.
  - intros. now apply insertSerialMessage_ok.
  - intros. now apply setLatestStableFirmwareVersion_ok.
  - intros. now apply createUser_ok.
  - intros JSON_parse now message. unfold Mqtt.handle_message.
    generalize (Mqtt.on_message JSON_parse message). intros effects.
    revert db Hok.
    induction effects as [|e effects IH]; intros db Hok; simpl; [exact Hok|].
    apply IH. now apply perform_ok.
  - intros. now apply register_ok.
  - intros. now apply set_stable_latest_version_ok.
Qed.

Lemma store_ok_preserved_witness :
  store_ok empty_db
  ∧ store_ok (Routes.register
                (Mqtt.handle_message Samples.sample_parse empty_db 100 "serial")
                "alice" "Aa1!aa").1.
Proof.
  assert (store_ok empty_db) as H0.
  { unfold store_ok, rowids_increasing. simpl.
    repeat split; constructor. }
  split; [exact H0|].
  apply (store_ok_preserved
           (Mqtt.handle_message Samples.sample_parse empty_db 100 "serial")).
  apply (store_ok_preserved empty_db). exact H0.
Defined.

End InvariantFacts.

(** ** Reading back what was inserted *)

Section ReadingFacts.
Import Js Db Invariant.

(** X4.  GET /get-sensor-data on a store whose reading ids grow with the
    insertion order answers with the reading inserted last, and with 404
    exactly when there is no reading. *)
Theorem get_sensor_data_last_inserted (db : Database) :
  rowids_increasing sd_id (SensorData db) →
  Routes.get_sensor_data db
  = match last (SensorData db) with
    | Some row => Routes.Sent 200 row
    | None => Routes.Refused 404 "No records found"
    end
  ∧ (Routes.get_sensor_data db = Routes.Refused 404 "No records found"
     ↔ SensorData db = []).
Proof.
  intros Hinc. unfold Routes.get_sensor_data, fetchLastRecord.
  rewrite (order_by_desc_last _ _ Hinc).
  destruct (SensorData db) as [|r0 rows0] using rev_ind.
  - split; [reflexivity|]. split; reflexivity.
  - rewrite last_snoc. split; [reflexivity|]. split; [discriminate|].
    intros H. now apply app_eq_nil in H as [_ H].
Qed.

Lemma get_sensor_data_last_inserted_witness :
  Routes.get_sensor_data
    (insertData (insertData empty_db 100 JNull JNull JNull JNull JNull JNull)
                105 (JNumber (43 # 2)) JNull (JBool false) JNull JNull JNull)
  = Routes.Sent 200
      {| sd_id := 2; sd_temperature := Sqlite3.SqlNumber (43 # 2);
         sd_humidity := Sqlite3.SqlNull; sd_fanState := Sqlite3.SqlNumber 0;
         sd_heaterState := Sqlite3.SqlNull; sd_deviceID := Sqlite3.SqlNull;
         sd_firmwareVersion := Sqlite3.SqlNull; sd_timestamp := 105 |}.
Proof.
  apply (get_sensor_data_last_inserted
           (insertData (insertData empty_db 100 JNull JNull JNull JNull JNull JNull)
                       105 (JNumber (43 # 2)) JNull (JBool false) JNull JNull JNull)).
  unfold rowids_increasing. simpl. repeat constructor.
Defined.

#[local] Instance id_desc_trans : Transitive id_desc.
Proof. unfold id_desc. intros a b c. lia. Qed.

#[local] Instance id_desc_total : Total id_desc.
Proof. unfold id_desc. intros a b. lia. Qed.


Lemma reverse_id_desc (rows : list SerialRow) :
  rowids_increasing sm_id rows → StronglySorted id_desc (reverse rows).
Proof.
  induction 1 as [|r rows _ IH Hr]; [constructor|].
  rewrite reverse_cons. apply StronglySorted_app_2; [|exact IH|repeat constructor].
  intros x y Hx ->%list_elem_of_singleton. unfold id_desc.
  rewrite elem_of_reverse in Hx. rewrite Forall_forall in Hr.
  apply Hr in Hx. lia.
Qed.

(** X6.  On a store whose serial ids grow with the insertion order, GET
    /latest-serial-messages answers with the ten messages inserted last,
    the newest first. *)
Theorem latest_serial_messages_newest_first (db : Database) :
  rowids_increasing sm_id (SerialMessages db) →
  Routes.latest_serial_messages db
  = Routes.Sent 200 (Some (take 10 (reverse (SerialMessages db)))).
Proof.
  intros Hinc. unfold Routes.latest_serial_messages, fetchLatestSerialMessages.
  do 3 f_equal. unfold order_by_id_desc.
  apply (StronglySorted_unique_strong id_desc).
  - intros x y Hx Hy Hxy Hyx. unfold id_desc in Hxy, Hyx.
    rewrite merge_sort_Permutation in Hx. rewrite elem_of_reverse in Hy.
    apply (rowids_increasing_inj sm_id (SerialMessages db)); auto. lia.
  - apply StronglySorted_merge_sort; apply _.
  - now apply reverse_id_desc.
  - rewrite merge_sort_Permutation. now rewrite reverse_Permutation.
Qed.

Lemma latest_serial_messages_newest_first_witness :
  Routes.latest_serial_messages
    (insertSerialMessage (insertSerialMessage empty_db (JString "boot")) (JString "ok"))
  = Routes.Sent 200
      (Some [{| sm_id := 2; sm_message := Sqlite3.SqlText "ok" |};
             {| sm_id := 1; sm_message := Sqlite3.SqlText "boot" |}]).
Proof.
  apply (latest_serial_messages_newest_first
           (insertSerialMessage (insertSerialMessage empty_db (JString "boot"))
                                (JString "ok"))).
  unfold rowids_increasing. simpl. repeat constructor.
Defined.

(** X7.  On a store whose pointer rows all hold a version that passes the
    pattern, which setLatestStableFirmwareVersion keeps true for every
    string it is given, GET /latest-stable-firmware answers 404 exactly
    when no version was ever set, and otherwise 200 with a
    major.minor.patch version. *)
Theorem latest_stable_firmware_on_valid_pointers (db : Database) :
  pointer_versions_valid db →
  (status (Routes.latest_stable_firmware db) = 404 ↔ LatestStableFirmware db = [])
  ∧ (LatestStableFirmware db ≠ [] →
     ∃ v, Spec.major_minor_patch v
          ∧ Routes.latest_stable_firmware db
            = {| status := 200;
                 body := JObject [("firmwareVersion"%string, JString v)] |})
  ∧ (∀ now v, pointer_versions_valid (setLatestStableFirmwareVersion db now v).1).
Proof.
  intros Hvalid. split; [|split].
  - unfold Routes.latest_stable_firmware, fetchLatestStableFirmwareVersion,
      Routes.latest_stable_firmware_response.
    destruct (order_by_desc_limit_1 lsf_timestamp (LatestStableFirmware db))
      as [r|] eqn:E; simpl.
    + pose proof E as Hin. apply order_by_desc_Some in Hin as [Hin _].
      unfold pointer_versions_valid in Hvalid. rewrite Forall_forall in Hvalid.
      destruct (Hvalid r Hin) as (v & Hv & Hpat). rewrite Hv.
      destruct (String.eqb_spec v "") as [->|_];
        [vm_compute in Hpat; discriminate|]. simpl.
      split; [discriminate|]. intros H. rewrite H in Hin.
      now apply elem_of_nil in Hin.
    + apply order_by_desc_None in E. now rewrite E.
  - intros Hrows.
    unfold Routes.latest_stable_firmware, fetchLatestStableFirmwareVersion,
      Routes.latest_stable_firmware_response.
    destruct (order_by_desc_limit_1 lsf_timestamp (LatestStableFirmware db))
      as [r|] eqn:E; simpl.
    + pose proof E as Hin. apply order_by_desc_Some in Hin as [Hin _].
      unfold pointer_versions_valid in Hvalid. rewrite Forall_forall in Hvalid.
      destruct (Hvalid r Hin) as (v & Hv & Hpat). rewrite Hv.
      destruct (String.eqb_spec v "") as [->|_];
        [vm_compute in Hpat; discriminate|]. simpl.
      exists v. split; [now apply validateFirmwareVersion_spec|reflexivity].
    + apply order_by_desc_None in E. contradiction.
  - intros now v. unfold pointer_versions_valid, setLatestStableFirmwareVersion.
    destruct (validateFirmwareVersion v) eqn:E; simpl; [|exact Hvalid].
    apply Forall_app. split; [exact Hvalid|]. repeat constructor. simpl. eauto.
Qed.

Lemma latest_stable_firmware_on_valid_pointers_witness :
  ∃ v, Spec.major_minor_patch v
       ∧ Routes.latest_stable_firmware
           (setLatestStableFirmwareVersion empty_db 100 "1.0.0").1
         = {| status := 200;
              body := JObject [("firmwareVersion"%string, JString v)] |}.
Proof.
  apply (latest_stable_firmware_on_valid_pointers
           (setLatestStableFirmwareVersion empty_db 100 "1.0.0").1).
  - unfold pointer_versions_valid. simpl. repeat constructor.
    exists "1.0.0"%string. split; reflexivity.
  - discriminate.
Defined.

End ReadingFacts.

(** ** Credentials: creation, login, token check *)

Section CredentialFacts.
Import Js Db Invariant.

Lemma find_snoc_fresh (rows : list UserRow) (new : UserRow) (username : string) :
  (∀ r, r ∈ rows → u_username r ≠ username) →
  u_username new = username →
  find (λ r, String.eqb (u_username r) username) (rows ++ [new]) = Some new.
Proof.
  intros Hfresh Hnew. induction rows as [|r rows IH]; simpl.
  - now rewrite Hnew, String.eqb_refl.
  - destruct (String.eqb_spec (u_username r) username) as [Heq|_].
    + exfalso. apply (Hfresh r); [now left|exact Heq].
    + apply IH. intros r' Hr'. apply Hfresh. now right.
Qed.

Lemma existsb_username_true (rows : list UserRow) (username : string) :
  existsb (λ r, String.eqb (u_username r) username) rows = true
  ↔ ∃ r, r ∈ rows ∧ u_username r = username.
Proof.
  rewrite existsb_exists. split.
  - intros (r & Hin & Hr). apply String.eqb_eq in Hr.
    exists r. split; [now apply list_elem_of_In|exact Hr].
  - intros (r & Hin & Hr). exists r. split; [now apply list_elem_of_In|].
    now apply String.eqb_eq.
Qed.

(** X8.  createUser fails exactly when the username is already in the table,
    and then leaves the store as it was; otherwise it appends one row with
    a fresh id, which findUserByUsername finds again. *)
Theorem createUser_unique_username (db : Database) (username password : string) :
  (is_Some (createUser db username password).2
   ↔ ∃ r, r ∈ users db ∧ u_username r = username)
  ∧ (is_Some (createUser db username password).2 →
     (createUser db username password).1 = db)
  ∧ ((createUser db username password).2 = None →
     users (createUser db username password).1
     = users db ++ [{| u_id := next_rowid (map u_id (users db));
                       u_username := username;
                       u_password := password |}]
     ∧ findUserByUsername (createUser db username password).1 username
       = (None, Some {| u_id := next_rowid (map u_id (users db));
                        u_username := username;
                        u_password := password |})).
Proof.
  unfold createUser.
  destruct (existsb (λ r, String.eqb (u_username r) username) (users db)) eqn:E; simpl.
  - apply existsb_username_true in E.
    split; [split; eauto|]. split; [reflexivity|discriminate].
  - split; [|split].
    + split; [intros [? [=]]|].
      intros H. apply existsb_username_true in H. congruence.
    + intros [? [=]].
    + intros _. split; [reflexivity|].
      unfold findUserByUsername. simpl. rewrite find_snoc_fresh; auto.
      intros r Hr Heq.
      assert (existsb (λ r, String.eqb (u_username r) username) (users db) = true)
        as Ht by (apply existsb_username_true; eauto).
      congruence.
Qed.

(** X9.  A registration with a fresh username and credentials that pass the
    validators answers 201; the same username and password then log in,
    with a token signed for the new row, and any other password is
    refused. *)
Theorem register_then_login (jwt_sign : Z → string → string) (db : Database)
    (username password : string) :
  Validator.validateUsername username = true →
  Validator.validatePassword password = true →
  (∀ r, r ∈ users db → u_username r ≠ username) →
  (Routes.register db username password).2
  = {| status := 201;
       body := JObject [("message"%string, JString "User registered successfully")] |}
  ∧ Auth.login jwt_sign (Routes.register db username password).1 username password
    = {| status := 200;
         body := JObject [("token"%string,
                           JString (jwt_sign (next_rowid (map u_id (users db)))
                                             username))] |}
  ∧ (∀ other, other ≠ password →
       Auth.login jwt_sign (Routes.register db username password).1 username other
       = json_error 400 "Invalid credentials").
Proof.
  intros Hu Hp Hfresh.
  assert (find (λ r, String.eqb (u_username r) username) (users db) = None) as Hfind.
  { destruct (find _ (users db)) as [r|] eqn:E; [|reflexivity].
    apply find_some in E as [Hin Hr]. apply String.eqb_eq in Hr.
    exfalso. apply (Hfresh r); [now apply list_elem_of_In|exact Hr]. }
  assert (existsb (λ r, String.eqb (u_username r) username) (users db) = false) as Hex.
  { destruct (existsb _ (users db)) eqn:E; [|reflexivity].
    apply existsb_username_true in E as (r & Hin & Hr).
    exfalso. now apply (Hfresh r). }
  assert (Routes.register db username password
          = ({| SensorData := SensorData db;
                SerialMessages := SerialMessages db;
                LatestStableFirmware := LatestStableFirmware db;
                users := users db
                         ++ [{| u_id := next_rowid (map u_id (users db));
                                u_username := username;
                                u_password := password |}] |},
             {| status := 201;
                body := JObject [("message"%string,
                                  JString "User registered successfully")] |}))
    as Hreg.
  { unfold Routes.register. rewrite Hu, Hp. cbn [negb].
    unfold findUserByUsername. rewrite Hfind.
    unfold createUser. now rewrite Hex. }
  rewrite Hreg. cbn [fst snd].
  split; [reflexivity|].
  unfold Auth.login, findUserByUsername. cbn [users].
  rewrite find_snoc_fresh by auto. cbn [u_password u_id u_username].
  split.
  - now rewrite String.eqb_refl.
  - intros other Hother.
    destruct (String.eqb_spec password other); [congruence|reflexivity].
Qed.

Lemma register_then_login_witness :
  Auth.login (λ id username, username +:+ ".token")
             (Routes.register empty_db "alice" "Aa1!aa").1 "alice" "Aa1!aa"
  = {| status := 200;
       body := JObject [("token"%string, JString "alice.token")] |}.
Proof.
  apply (register_then_login (λ id username, username +:+ ".token")
           empty_db "alice" "Aa1!aa").
  - vm_compute. reflexivity.
  - vm_compute. reflexivity.
  - intros r Hr. now apply elem_of_nil in Hr.
Defined.

(** X10.  On a table with pairwise distinct usernames, POST /login answers 200
    exactly when some row holds this username with this password; every
    other attempt, unknown user or wrong password alike, gets one and the
    same 400. *)
Theorem login_succeeds_iff (jwt_sign : Z → string → string) (db : Database)
    (username password : string) :
  NoDup (map u_username (users db)) →
  (status (Auth.login jwt_sign db username password) = 200
   ↔ ∃ r, r ∈ users db ∧ u_username r = username ∧ u_password r = password)
  ∧ (status (Auth.login jwt_sign db username password) ≠ 200 →
     Auth.login jwt_sign db username password = json_error 400 "Invalid credentials").
Proof.
  intros Hnd. unfold Auth.login, findUserByUsername.
  destruct (find (λ r, String.eqb (u_username r) username) (users db)) as [r|] eqn:E.
  - apply find_some in E as [Hin Hr]. apply String.eqb_eq in Hr.
    apply list_elem_of_In in Hin.
    destruct (String.eqb_spec (u_password r) password) as [Hpw|Hpw]; cbn [negb status].
    + split; [|intros H; now contradiction H]. split; eauto.
    + split; [|reflexivity]. split; [discriminate|].
      intros (r' & Hin' & Hr' & Hpw'). exfalso. apply Hpw.
      assert (r' = r) as ->; [|exact Hpw'].
      apply list_elem_of_lookup in Hin as [i Hi], Hin' as [j Hj].
      assert (i = j) as ->; [|congruence].
      apply (NoDup_lookup _ i j username Hnd); rewrite list_lookup_fmap.
      * now rewrite Hi; simpl; rewrite Hr.
      * now rewrite Hj; simpl; rewrite Hr'.
  - split; [|reflexivity]. simpl. split; [discriminate|].
    intros (r & Hin & Hr & _). apply list_elem_of_In in Hin.
    pose proof (find_none _ _ E r Hin) as Hno. simpl in Hno.
    rewrite Hr, String.eqb_refl in Hno. discriminate.
Qed.

Lemma login_succeeds_iff_witness :
  status (Auth.login (λ id username, username)
                     (Routes.register empty_db "alice" "Aa1!aa").1 "alice" "Aa1!aa") = 200
  ↔ ∃ r, r ∈ users (Routes.register empty_db "alice" "Aa1!aa").1
         ∧ u_username r = "alice"%string ∧ u_password r = "Aa1!aa"%string.
Proof.
  apply (login_succeeds_iff (λ id username, username)
           (Routes.register empty_db "alice" "Aa1!aa").1 "alice" "Aa1!aa").
  vm_compute. repeat constructor. intros H. inversion H.
Defined.

Lemma replace_first_Bearer (t : string) :
  Auth.replace_first "Bearer " "" ("Bearer " +:+ t) = t.
Proof. destruct t; reflexivity. Qed.

(** X11.  verifyToken answers 401 exactly when the authorization header is
    missing or empty; a header "Bearer <t>" passes exactly when jwt.verify
    accepts <t>, with its payload as the request's user, and gets 400
    otherwise; whenever a request passes, jwt.verify accepted the header
    without its first "Bearer ". *)
Theorem verifyToken_contract (jwt_verify : string → option jsval) :
  (∀ authorization,
      Auth.verifyToken jwt_verify authorization
      = Auth.Answer (json_error 401 "Access denied")
      ↔ authorization = None ∨ authorization = Some ""%string)
  ∧ (∀ t, Auth.verifyToken jwt_verify (Some ("Bearer " +:+ t))
          = match jwt_verify t with
            | Some decoded => Auth.Next decoded
            | None => Auth.Answer (json_error 400 "Invalid token")
            end)
  ∧ (∀ authorization user,
        Auth.verifyToken jwt_verify authorization = Auth.Next user →
        ∃ token, authorization = Some token ∧ token ≠ ""%string
                 ∧ jwt_verify (Auth.replace_first "Bearer " "" token) = Some user).
Proof.
  split; [|split].
  - intros [token|]; simpl; [|split; auto].
    destruct (String.eqb_spec token "") as [->|Hne].
    + split; auto.
    + split.
      * destruct (jwt_verify _); discriminate.
      * intros [[=]|[= ->]]. contradiction.
  - intros t. unfold Auth.verifyToken.
    rewrite replace_first_Bearer. reflexivity.
  - intros [token|] user; simpl; [|discriminate].
    destruct (String.eqb_spec token "") as [->|Hne]; [discriminate|].
    destruct (jwt_verify _) as [d|] eqn:E; [|discriminate].
    intros [= ->]. eauto.
Qed.

End CredentialFacts.

(** ** The dispatcher against the store *)

Section DispatcherStoreFacts.
Import Js Db Mqtt.

Lemma foldl_perform_storage_calls (now : Z) (effects : list effect) (db : Database) :
  foldl (perform now) db effects = foldl (perform now) db (storage_calls effects).
Proof.
  revert db. induction effects as [|e effects IH]; intros db; [reflexivity|].
  destruct e; simpl; apply IH.
Qed.

Lemma on_message_calls (JSON_parse : string → option jsval) (message : string) :
  storage_calls (on_message JSON_parse message) = []
  ∨ (∃ temperature humidity heaterState deviceID version,
        storage_calls (on_message JSON_parse message)
        = [CallInsertData temperature humidity (JBool false) heaterState deviceID version])
  ∨ (∃ serialMessage,
        storage_calls (on_message JSON_parse message)
        = [CallInsertSerialMessage serialMessage]).
Proof.
  unfold on_message. destruct (JSON_parse message) as [v|]; [|now left].
  destruct v; try (now left).
  unfold classify. cbv beta iota delta [get].
  destruct (strict_eq_string (lookup_field "messageType" fields) "data").
  - right. left. simpl. eauto 10.
  - destruct (strict_eq_string (lookup_field "messageType" fields) "serial").
    + right. right. simpl. eauto.
    + now left.
Qed.

(** X12.  One inbound message, whatever it is, never touches the pointer table
    or the credentials, keeps every reading and serial message already
    stored, and adds at most one row in all. *)
Theorem handle_message_adds_at_most_one_row (JSON_parse : string → option jsval)
    (db : Database) (now : Z) (message : string) :
  LatestStableFirmware (handle_message JSON_parse db now message)
  = LatestStableFirmware db
  ∧ users (handle_message JSON_parse db now message) = users db
  ∧ ∃ readings serials,
      SensorData (handle_message JSON_parse db now message) = SensorData db ++ readings
      ∧ SerialMessages (handle_message JSON_parse db now message)
        = SerialMessages db ++ serials
      ∧ (length readings + length serials ≤ 1)%nat.
Proof.
  unfold handle_message. rewrite foldl_perform_storage_calls.
  destruct (on_message_calls JSON_parse message)
    as [E|[(t & h & hs & d & v & E)|(m & E)]]; rewrite E; simpl.
  - repeat split. exists [], []. rewrite !app_nil_r. repeat split. simpl. lia.
  - destruct (insertData_cases db now t h (JBool false) hs d v)
      as [->|(row & _ & _ & ->)]; simpl.
    + repeat split. exists [], []. rewrite !app_nil_r. repeat split. simpl. lia.
    + repeat split. exists [row], [].
      split; [reflexivity|]. split; [now rewrite app_nil_r|]. simpl. lia.
  - destruct (insertSerialMessage_cases db m) as [->|(row & _ & _ & ->)]; simpl.
    + repeat split. exists [], []. rewrite !app_nil_r. repeat split. simpl. lia.
    + repeat split. exists [], [row].
      split; [now rewrite app_nil_r|]. split; [reflexivity|]. simpl. lia.
Qed.

(** X13.  A payload with messageType "serial" whose serialMessage is a
    string adds one SerialMessages row holding that string; any other
    value that is neither an object nor an array, nor null, adds one row
    with the value as the driver binds it; a missing or null serialMessage
    and an object with a single property that is not named by a number
    leave the store as it was. *)
Theorem serial_message_stored_or_dropped (JSON_parse : string → option jsval)
    (db : Database) (now : Z) (message : string) (fields : list (string * jsval)) :
  JSON_parse message = Some (JObject fields) →
  lookup_field "messageType" fields = JString "serial" →
  (∀ s, lookup_field "serialMessage" fields = JString s →
        handle_message JSON_parse db now message
        = {| SensorData := SensorData db;
             SerialMessages :=
               SerialMessages db
               ++ [{| sm_id := next_rowid (map sm_id (SerialMessages db));
                      sm_message := Sqlite3.SqlText s |}];
             LatestStableFirmware := LatestStableFirmware db;
             users := users db |})
  ∧ (Sqlite3.is_parameter_list (lookup_field "serialMessage" fields) = false →
     Sqlite3.field_of (lookup_field "serialMessage" fields) ≠ Sqlite3.FNull →
     SerialMessages (handle_message JSON_parse db now message)
     = SerialMessages db
       ++ [{| sm_id := next_rowid (map sm_id (SerialMessages db));
              sm_message := Sqlite3.stored Sqlite3.TEXT
                              (lookup_field "serialMessage" fields) |}])
  ∧ ("serialMessage"%string ∉ fields.*1 →
     handle_message JSON_parse db now message = db)
  ∧ (lookup_field "serialMessage" fields = JNull →
     handle_message JSON_parse db now message = db)
  ∧ (∀ name value,
        lookup_field "serialMessage" fields = JObject [(name, value)] →
        Sqlite3.property_place name = Sqlite3.Named name →
        handle_message JSON_parse db now message = db).
Proof.
  intros Hp Ht.
  assert (handle_message JSON_parse db now message
          = insertSerialMessage db (lookup_field "serialMessage" fields)) as H.
  { unfold handle_message, on_message, classify. rewrite Hp.
    cbv beta iota delta [get]. rewrite Ht. reflexivity. }
  rewrite H. split; [|split; [|split; [|split]]].
  - intros s ->. reflexivity.
  - intros Hlist Hnull. rewrite insertSerialMessage_positional by exact Hlist.
    unfold Sqlite3.stored.
    destruct (Sqlite3.field_of (lookup_field "serialMessage" fields));
      [contradiction|reflexivity..].
  - intros Hk. rewrite (lookup_field_missing _ _ Hk). reflexivity.
  - intros ->. reflexivity.
  - intros name value -> Hname.
    unfold insertSerialMessage, Sqlite3.bound_values, Sqlite3.Bind, Sqlite3.named.
    revert Hname. generalize Sqlite3.property_place. intros place_of Hname.
    simpl. destruct (Sqlite3.is_array_index name); simpl;
      destruct (Sqlite3.bindParameter value); simpl; rewrite ?Hname; reflexivity.
Qed.

Lemma serial_message_stored_or_dropped_witness :
  SerialMessages (handle_message Samples.sample_parse empty_db 100 "serial")
  = [{| sm_id := 1; sm_message := Sqlite3.SqlText "boot ok" |}].
Proof.
  destruct (serial_message_stored_or_dropped
              Samples.sample_parse empty_db 100 "serial" Samples.serial_fields
              eq_refl eq_refl) as (_ & H & _).
  apply H; [reflexivity|discriminate].
Defined.

Lemma insertData_selected (db : Database) (now : Z)
    (temperature humidity fanState heaterState deviceID version : jsval) :
  Sqlite3.is_parameter_list temperature = false →
  order_by_desc_limit_1 sd_id
    (SensorData (insertData db now temperature humidity fanState heaterState
                            deviceID version))
  = Some {| sd_id := next_rowid (map sd_id (SensorData db));
            sd_temperature := Sqlite3.stored Sqlite3.REAL temperature;
            sd_humidity := Sqlite3.stored Sqlite3.REAL humidity;
            sd_fanState := Sqlite3.stored Sqlite3.INTEGER fanState;
            sd_heaterState := Sqlite3.stored Sqlite3.INTEGER heaterState;
            sd_deviceID := Sqlite3.stored Sqlite3.TEXT deviceID;
            sd_firmwareVersion := Sqlite3.stored Sqlite3.TEXT version;
            sd_timestamp := now |}.
Proof.
  intros Hlist. rewrite insertData_positional by exact Hlist. simpl.
  apply order_by_desc_snoc. simpl.
  pose proof (next_rowid_above (map sd_id (SensorData db))) as H.
  rewrite Forall_forall in H. apply Forall_forall. intros r Hr.
  apply H, list_elem_of_fmap. eauto.
Qed.

(** X14.  After a data message received at second [received] whose
    temperature is neither an object nor an array, whatever the store held
    before, the device is reported Online up to 30 seconds later and
    Offline from the 31st on, last seen at [received], and GET
    /get-sensor-data answers with that message's reading as SQLite stores
    it (fanState 0). *)
Theorem data_message_then_status (JSON_parse : string → option jsval)
    (db : Database) (received asked : Z) (message : string)
    (fields : list (string * jsval)) :
  JSON_parse message = Some (JObject fields) →
  lookup_field "messageType" fields = JString "data" →
  Sqlite3.is_parameter_list (lookup_field "temperature" fields) = false →
  Routes.check_device_status (handle_message JSON_parse db received message) asked
  = Routes.Sent 200
      (Some {| ds_status := if asked - received <=? 30 then "Online" else "Offline";
               ds_lastSeen := SeenAt received |})
  ∧ Routes.get_sensor_data (handle_message JSON_parse db received message)
    = Routes.Sent 200
        {| sd_id := next_rowid (map sd_id (SensorData db));
           sd_temperature := Sqlite3.stored Sqlite3.REAL (lookup_field "temperature" fields);
           sd_humidity := Sqlite3.stored Sqlite3.REAL (lookup_field "humidity" fields);
           sd_fanState := Sqlite3.SqlNumber 0;
           sd_heaterState := Sqlite3.stored Sqlite3.INTEGER (lookup_field "heaterState" fields);
           sd_deviceID := Sqlite3.stored Sqlite3.TEXT (lookup_field "deviceID" fields);
           sd_firmwareVersion := Sqlite3.stored Sqlite3.TEXT (lookup_field "version" fields);
           sd_timestamp := received |}.
Proof.
  intros Hp Ht Hlist.
  assert (handle_message JSON_parse db received message
          = insertData db received (lookup_field "temperature" fields)
              (lookup_field "humidity" fields) (JBool false)
              (lookup_field "heaterState" fields) (lookup_field "deviceID" fields)
              (lookup_field "version" fields)) as ->.
  { unfold handle_message. rewrite (on_message_data _ _ _ Hp Ht). reflexivity. }
  unfold Routes.check_device_status, Routes.get_sensor_data, checkDeviceStatus,
    status_query, fetchLastRecord, device_status_of.
  rewrite insertData_selected by exact Hlist. simpl.
  split; [|reflexivity].
  now destruct (asked - received <=? 30).
Qed.

Lemma data_message_then_status_witness :
  Routes.check_device_status
    (handle_message Samples.sample_parse empty_db 100 "data") 130
  = Routes.Sent 200 (Some {| ds_status := "Online"; ds_lastSeen := SeenAt 100 |})
  ∧ Routes.check_device_status
      (handle_message Samples.sample_parse empty_db 100 "data") 131
    = Routes.Sent 200 (Some {| ds_status := "Offline"; ds_lastSeen := SeenAt 100 |}).
Proof.
  split.
  - apply (data_message_then_status Samples.sample_parse empty_db 100 130 "data"
             Samples.data_fields); reflexivity.
  - apply (data_message_then_status Samples.sample_parse empty_db 100 131 "data"
             Samples.data_fields); reflexivity.
Defined.

End DispatcherStoreFacts.

(** ** Uploading and listing *)

Section UploadListingFacts.
Import Js Regex Storage.

Lemma prefix_true_inv (p s : string) :
  String.prefix p s = true → ∃ r, s = p +:+ r.
Proof.
  revert s. induction p as [|c p IH]; intros s H.
  - exists s. reflexivity.
  - destruct s as [|c' s]; simpl in H; [discriminate|].
    destruct (ascii_dec c c') as [->|_]; [|discriminate].
    apply IH in H as [r ->]. exists r. reflexivity.
Qed.

Lemma cut_at_first (c : ascii) (a b x y : list ascii) :
  c ∉ a → c ∉ b → a ++ c :: x = b ++ c :: y → a = b.
Proof.
  revert b. induction a as [|a0 a IH]; intros b Ha Hb H.
  - destruct b as [|b0 b]; [reflexivity|]. simpl in H. injection H as <- _.
    exfalso. apply Hb. now left.
  - destruct b as [|b0 b]; simpl in H.
    + injection H as -> _. exfalso. apply Ha. now left.
    + injection H as -> H. f_equal. apply (IH b); auto.
      * intros Hin. apply Ha. now right.
      * intros Hin. apply Hb. now right.
Qed.

Lemma digits_and_dots_no_slash (v : string) :
  Spec.digits_and_dots v → "/"%char ∉ list_ascii_of_string v.
Proof.
  intros [_ Hall] Hin. rewrite Forall_forall in Hall.
  apply Hall in Hin. vm_compute in Hin. discriminate.
Qed.

Lemma firmware_key_inj (v w : string) :
  Spec.firmware_key v = Spec.firmware_key w → v = w.
Proof.
  intros H. apply (f_equal list_ascii_of_string) in H.
  rewrite !firmware_key_list in H.
  apply app_inv_head, app_inv_tail in H. now apply list_ascii_of_string_inj.
Qed.

Lemma other_version_outside_prefix (v w : string) :
  Spec.digits_and_dots v → Spec.digits_and_dots w → w ≠ v →
  String.prefix ("firmware/" +:+ v +:+ "/") (Spec.firmware_key w) = false.
Proof.
  intros Hv Hw Hne.
  destruct (String.prefix ("firmware/" +:+ v +:+ "/") (Spec.firmware_key w)) eqn:E;
    [|reflexivity].
  exfalso. apply Hne. apply prefix_true_inv in E as [r Hr].
  apply (f_equal list_ascii_of_string) in Hr.
  rewrite firmware_key_list, !list_ascii_of_string_app in Hr.
  rewrite <- !app_assoc in Hr. apply app_inv_head in Hr.
  apply list_ascii_of_string_inj.
  apply (cut_at_first "/" _ _ _ _
           (digits_and_dots_no_slash _ Hw) (digits_and_dots_no_slash _ Hv) Hr).
Qed.

Lemma elem_of_getAllFiles (bucket : Bucket) (k : string) :
  k ∈ getAllFiles bucket ↔ is_Some (bucket !! k).
Proof.
  unfold getAllFiles. rewrite list_elem_of_fmap. split.
  - intros ([k' o] & -> & Hin). apply elem_of_map_to_list in Hin. simpl. eauto.
  - intros [o Ho]. exists (k, o). split; [reflexivity|].
    now apply elem_of_map_to_list.
Qed.

Lemma elem_of_listFirmwareVersions (files : list string) (v : string) :
  v ∈ listFirmwareVersions files
  ↔ Spec.digits_and_dots v ∧ Spec.firmware_key v ∈ files.
Proof.
  destruct (listing_fold files [] (NoDup_nil_2)) as [_ Hiff].
  unfold listFirmwareVersions. rewrite Hiff. split.
  - intros [H|(x & Hx & Hm)]; [now apply elem_of_nil in H|].
    apply match_firmware_path_spec in Hm as [-> Hv]. auto.
  - intros [Hv Hin]. right. exists (Spec.firmware_key v).
    split; [exact Hin|]. now apply match_firmware_path_spec.
Qed.

Lemma upload_lookup_outside (file : UploadedFile) (v : string) (bucket : Bucket)
    (k : string) :
  String.prefix ("firmware/" +:+ v +:+ "/") k = false →
  (uploadFileToFirebaseStorage file v bucket).1 !! k = bucket !! k.
Proof.
  intros Hk. unfold uploadFileToFirebaseStorage. simpl.
  assert (k ≠ "firmware/" +:+ v +:+ "/firmware.bin") as Hne.
  { intros ->.
    assert (String.prefix ("firmware/" +:+ v +:+ "/")
                          ("firmware/" +:+ v +:+ "/firmware.bin") = true) as Hp.
    { replace ("firmware/" +:+ v +:+ "/firmware.bin")
        with (("firmware/" +:+ v +:+ "/") +:+ "firmware.bin").
      - apply prefix_append.
      - rewrite !append_assoc. reflexivity. }
    congruence. }
  rewrite lookup_insert_ne by congruence.
  rewrite foldl_delete_lookup.
  destruct (decide (k ∈ getFiles ("firmware/" +:+ v +:+ "/") bucket)) as [Hin|_];
    [|reflexivity].
  apply elem_of_getFiles in Hin as [_ Hp]. congruence.
Qed.

(** X15.  The bucket after an upload, object by object: the new binary at
    firmware/<version>/firmware.bin, nothing else under
    firmware/<version>/, and every object outside that prefix as it was. *)
Theorem upload_bucket_lookup (file : UploadedFile) (v : string) (bucket : Bucket)
    (k : string) :
  (uploadFileToFirebaseStorage file v bucket).1 !! k
  = if decide (k = Spec.firmware_key v)
    then Some {| contents := buffer file; contentType := mimetype file |}
    else if String.prefix ("firmware/" +:+ v +:+ "/") k
         then None
         else bucket !! k.
Proof.
  destruct (decide (k = Spec.firmware_key v)) as [->|Hne].
  - unfold uploadFileToFirebaseStorage, Spec.firmware_key. simpl.
    apply lookup_insert_eq.
  - destruct (String.prefix ("firmware/" +:+ v +:+ "/") k) eqn:Hp;
      [|now apply upload_lookup_outside].
    unfold uploadFileToFirebaseStorage. simpl.
    rewrite lookup_insert_ne by (unfold Spec.firmware_key in Hne; congruence).
    rewrite foldl_delete_lookup.
    destruct (decide (k ∈ getFiles ("firmware/" +:+ v +:+ "/") bucket))
      as [_|Hnot]; [reflexivity|].
    destruct (bucket !! k) as [o|] eqn:Hk; [|reflexivity].
    exfalso. apply Hnot, elem_of_getFiles. split; [eauto|exact Hp].
Qed.

Lemma uploaded_version_listed (file : UploadedFile) (v : string) (bucket : Bucket) :
  Spec.digits_and_dots v →
  v ∈ listFirmwareVersions_of (uploadFileToFirebaseStorage file v bucket).1.
Proof.
  intros Hv. unfold listFirmwareVersions_of.
  apply elem_of_listFirmwareVersions. split; [exact Hv|].
  apply elem_of_getAllFiles. unfold uploadFileToFirebaseStorage, Spec.firmware_key.
  simpl. rewrite lookup_insert_eq. eauto.
Qed.

(** X16.  Uploading a version made of digits and dots adds exactly that version
    to what listFirmwareVersions reports: it is listed afterwards, every
    version listed before still is, and nothing else appears. *)
Theorem upload_then_list (file : UploadedFile) (v : string) (bucket : Bucket) :
  Spec.digits_and_dots v →
  ∀ w, w ∈ listFirmwareVersions_of (uploadFileToFirebaseStorage file v bucket).1
       ↔ w = v ∨ w ∈ listFirmwareVersions_of bucket.
Proof.
  intros Hv w. split.
  - intros Hw. destruct (decide (w = v)) as [->|Hne]; [now left|]. right.
    unfold listFirmwareVersions_of in *.
    apply elem_of_listFirmwareVersions in Hw as [Hdd Hin].
    apply elem_of_listFirmwareVersions. split; [exact Hdd|].
    apply elem_of_getAllFiles in Hin. apply elem_of_getAllFiles.
    rewrite upload_lookup_outside in Hin; [exact Hin|].
    now apply other_version_outside_prefix.
  - intros [->|Hw]; [now apply uploaded_version_listed|].
    destruct (decide (w = v)) as [->|Hne]; [now apply uploaded_version_listed|].
    unfold listFirmwareVersions_of in *.
    apply elem_of_listFirmwareVersions in Hw as [Hdd Hin].
    apply elem_of_listFirmwareVersions. split; [exact Hdd|].
    apply elem_of_getAllFiles in Hin. apply elem_of_getAllFiles.
    rewrite upload_lookup_outside; [exact Hin|].
    now apply other_version_outside_prefix.
Qed.

Lemma upload_then_list_witness :
  "1.0.0"%string
  ∈ listFirmwareVersions_of
      (uploadFileToFirebaseStorage
         {| originalname := "fw.bin"; buffer := "new";
            mimetype := "application/octet-stream" |}
         "1.0.0" ∅).1.
Proof.
  apply (upload_then_list
           {| originalname := "fw.bin"; buffer := "new";
              mimetype := "application/octet-stream" |}
           "1.0.0" ∅).
  - split; [discriminate|]. vm_compute. repeat constructor.
  - now left.
Defined.

End UploadListingFacts.

(** ** Setting and getting the pointer over HTTP *)

Section PointerRouteFacts.
Import Js Db.


End PointerRouteFacts.
